(** * Intrusive doubly-linked lists and rings (gVisor [ilist] instantiations)

    A shallow embedding of [stringList], [stringEntry] and the [stringRing*]
    functions of [pkg/sentry/fsimpl/gofer/string_list.go].  The other
    instantiations in the repository ([waiterList], [groPacketList], ...) are
    the same code with the element type renamed, so one embedding covers them.

    Go pointers are modelled as optional addresses into two typed stores, one
    for list elements and one for list headers.  Every operation is a
    computation in a state-and-failure monad: it threads the stores and fails
    where the Go code would dereference [nil]. *)

From stdpp Require Import gmap list fin_maps.
From Stdlib Require Import ZArith Lia.

#[local] Set Warnings "-clear-no-such-hyp".

(** ** Data model *)

(** An address of a live object; a pointer is [None] for Go's [nil]. *)
Abbreviation addr := positive (only parsing).
Abbreviation ptr := (option positive) (only parsing).

(** [type stringEntry struct { next, prev *stringListElem }].  The element
    type embeds its entry and [linkerFor] is the identity, so an element is
    identified with its entry. *)
Record stringEntry := Entry { next : ptr; prev : ptr }.

(** [type stringList struct { head, tail *stringListElem }]. *)
Record stringList := ListHdr { head : ptr; tail : ptr }.

(** The two typed stores.  [*stringListElem] and [*stringList] are different
    pointer types, so an element never aliases a list header; two list
    pointers, or two element pointers, may alias. *)
Record state := State {
  elems : gmap positive stringEntry;
  lists : gmap positive stringList
}.

Global Instance stringEntry_eq_dec : EqDecision stringEntry.
Proof. solve_decision. Defined.
Global Instance stringList_eq_dec : EqDecision stringList.
Proof. solve_decision. Defined.
Global Instance state_eq_dec : EqDecision state.
Proof. solve_decision. Defined.

(** ** The monad of list operations

    [None] stands for a run that does not return normally: a [nil] (or
    dangling) dereference, or a loop that used up its fuel. *)
Definition M (A : Type) : Type := state → option (A * state).

Global Instance M_ret : MRet M := λ A a σ, Some (a, σ).
Global Instance M_bind : MBind M := λ A B k m σ,
  match m σ with
  | Some (a, σ') => k a σ'
  | None => None
  end.

(** The state a run ends in, and the value it returns. *)
Definition exec {A} (m : M A) (σ : state) : option state := snd <$> m σ.
Definition eval {A} (m : M A) (σ : state) : option A := fst <$> m σ.

(** Reading and writing the object a pointer refers to. *)
Definition deref (e : ptr) : M stringEntry := λ σ,
  match e with
  | Some a => match elems σ !! a with Some en => Some (en, σ) | None => None end
  | None => None
  end.

Definition assign (e : ptr) (en : stringEntry) : M unit := λ σ,
  match e with
  | Some a =>
      match elems σ !! a with
      | Some _ => Some (tt, State (<[a := en]> (elems σ)) (lists σ))
      | None => None
      end
  | None => None
  end.

Definition deref_list (l : ptr) : M stringList := λ σ,
  match l with
  | Some a => match lists σ !! a with Some L => Some (L, σ) | None => None end
  | None => None
  end.

Definition assign_list (l : ptr) (L : stringList) : M unit := λ σ,
  match l with
  | Some a =>
      match lists σ !! a with
      | Some _ => Some (tt, State (elems σ) (<[a := L]> (lists σ)))
      | None => None
      end
  | None => None
  end.

(** Field accesses [l.head], [l.tail], [l.head = v], [l.tail = v]. *)
Definition get_head (l : ptr) : M ptr := L ← deref_list l; mret (head L).
Definition get_tail (l : ptr) : M ptr := L ← deref_list l; mret (tail L).
Definition set_head (l v : ptr) : M unit :=
  L ← deref_list l; assign_list l (ListHdr v (tail L)).
Definition set_tail (l v : ptr) : M unit :=
  L ← deref_list l; assign_list l (ListHdr (head L) v).

(** ** [stringElementMapper] and [stringEntry] *)

Definition linkerFor (elem : ptr) : ptr := elem.

Definition Next (e : ptr) : M ptr := en ← deref e; mret (next en).
Definition Prev (e : ptr) : M ptr := en ← deref e; mret (prev en).
Definition SetNext (e elem : ptr) : M unit :=
  en ← deref e; assign e (Entry elem (prev en)).
Definition SetPrev (e elem : ptr) : M unit :=
  en ← deref e; assign e (Entry (next en) elem).

(** ** [stringList] *)

Definition Reset (l : ptr) : M unit :=
  set_head l None;; set_tail l None.

Definition Empty (l : ptr) : M bool :=
  h ← get_head l; mret (bool_decide (h = None)).

Definition Front (l : ptr) : M ptr := get_head l.
Definition Back (l : ptr) : M ptr := get_tail l.

(** Go's [int] on the 64-bit targets gVisor supports. *)
Definition wrap_int (z : Z) : Z := ((z + 2 ^ 63) `mod` 2 ^ 64 - 2 ^ 63)%Z.

(** The loop of [Len]: [for e := l.Front(); e != nil; e = e.Next() { count++ }].
    It need not terminate (on a cyclic chain), hence the fuel. *)
Fixpoint Len_loop (fuel : nat) (e : ptr) (count : Z) : M Z :=
  match e with
  | None => mret count
  | Some _ =>
      match fuel with
      | O => λ _, None
      | S fuel' =>
          let count' := wrap_int (count + 1)%Z in
          e' ← Next (linkerFor e); Len_loop fuel' e' count'
      end
  end.

Definition Len (fuel : nat) (l : ptr) : M Z :=
  e ← Front l; Len_loop fuel e 0%Z.

Definition PushFront (l e : ptr) : M unit :=
  let linker := linkerFor e in
  h ← get_head l; SetNext linker h;;
  SetPrev linker None;;
  h ← get_head l;
  match h with
  | Some _ => SetPrev (linkerFor h) e
  | None => set_tail l e
  end;;
  set_head l e.

Definition PushFrontList (l m : ptr) : M unit :=
  lh ← get_head l;
  match lh with
  | None =>
      mh ← get_head m; set_head l mh;;
      mt ← get_tail m; set_tail l mt
  | Some _ =>
      mh ← get_head m;
      match mh with
      | Some _ =>
          lh ← get_head l; mt ← get_tail m; SetPrev (linkerFor lh) mt;;
          mt ← get_tail m; lh ← get_head l; SetNext (linkerFor mt) lh;;
          mh ← get_head m; set_head l mh
      | None => mret tt
      end
  end;;
  set_head m None;;
  set_tail m None.

Definition PushBack (l e : ptr) : M unit :=
  let linker := linkerFor e in
  SetNext linker None;;
  t ← get_tail l; SetPrev linker t;;
  t ← get_tail l;
  match t with
  | Some _ => SetNext (linkerFor t) e
  | None => set_head l e
  end;;
  set_tail l e.

Definition PushBackList (l m : ptr) : M unit :=
  lh ← get_head l;
  match lh with
  | None =>
      mh ← get_head m; set_head l mh;;
      mt ← get_tail m; set_tail l mt
  | Some _ =>
      mh ← get_head m;
      match mh with
      | Some _ =>
          lt ← get_tail l; mh ← get_head m; SetNext (linkerFor lt) mh;;
          mh ← get_head m; lt ← get_tail l; SetPrev (linkerFor mh) lt;;
          mt ← get_tail m; set_tail l mt
      | None => mret tt
      end
  end;;
  set_head m None;;
  set_tail m None.

Definition InsertAfter (l b e : ptr) : M unit :=
  let bLinker := linkerFor b in
  let eLinker := linkerFor e in
  a ← Next bLinker;
  SetNext eLinker a;;
  SetPrev eLinker b;;
  SetNext bLinker e;;
  match a with
  | Some _ => SetPrev (linkerFor a) e
  | None => set_tail l e
  end.

Definition InsertBefore (l a e : ptr) : M unit :=
  let aLinker := linkerFor a in
  let eLinker := linkerFor e in
  b ← Prev aLinker;
  SetNext eLinker a;;
  SetPrev eLinker b;;
  SetPrev aLinker e;;
  match b with
  | Some _ => SetNext (linkerFor b) e
  | None => set_head l e
  end.

Definition Remove (l e : ptr) : M unit :=
  let linker := linkerFor e in
  prev ← Prev linker;
  next ← Next linker;
  match prev with
  | Some _ => SetNext (linkerFor prev) next
  | None =>
      h ← get_head l;
      if decide (h = e) then set_head l next else mret tt
  end;;
  match next with
  | Some _ => SetPrev (linkerFor next) prev
  | None =>
      t ← get_tail l;
      if decide (t = e) then set_tail l prev else mret tt
  end;;
  SetNext linker None;;
  SetPrev linker None.

(** ** Rings *)

Definition stringRingInit (e : ptr) : M unit :=
  let linker := linkerFor e in
  SetNext linker e;;
  SetPrev linker e.

Definition stringRingAdd (old new : ptr) : M unit :=
  let oldLinker := linkerFor old in
  let newLinker := linkerFor new in
  next ← Next oldLinker;
  let prev := old in
  SetPrev next new;;
  SetNext newLinker next;;
  SetPrev newLinker prev;;
  SetNext oldLinker new.

Definition stringRingRemove (e : ptr) : M unit :=
  let eLinker := linkerFor e in
  next ← Next eLinker;
  prev ← Prev eLinker;
  SetPrev next prev;;
  SetNext prev next;;
  stringRingInit e.

Definition stringRingEmpty (e : ptr) : M bool :=
  let linker := linkerFor e in
  n ← Next linker; mret (bool_decide (n = e)).

(** ** Traversals

    The iteration idiom of the source's doc comment,
    [for e := l.Front(); e != nil; e = e.Next()], and its mirror image
    from [l.Back()] along [Prev]. *)
Fixpoint walk (step : ptr → M ptr) (fuel : nat) (e : ptr) : M (list positive) :=
  match e with
  | None => mret []
  | Some a =>
      match fuel with
      | O => λ _, None
      | S fuel' =>
          e' ← step (linkerFor e); rest ← walk step fuel' e'; mret (a :: rest)
      end
  end.

Definition iterate : nat → ptr → M (list positive) := walk Next.
Definition iterate_back : nat → ptr → M (list positive) := walk Prev.

Definition traverse (fuel : nat) (l : ptr) : M (list positive) :=
  e ← Front l; iterate fuel e.
Definition traverse_back (fuel : nat) (l : ptr) : M (list positive) :=
  e ← Back l; iterate_back fuel e.

(** [Next] applied [n] times. *)
Fixpoint Next_n (n : nat) (e : ptr) : M ptr :=
  match n with
  | O => mret e
  | S n' => e' ← Next (linkerFor e); Next_n n' e'
  end.

(** ** Representation invariant

    [dseg h p xs n]: in the element store [h] the addresses [xs] form a
    doubly-linked segment, entered from [p] (the [prev] of its first
    element) and left towards [n] (the [next] of its last element). *)
Definition first_or (xs : list positive) (n : ptr) : ptr :=
  match xs with
  | [] => n
  | x :: _ => Some x
  end.

Definition last_or (xs : list positive) (p : ptr) : ptr :=
  match last xs with
  | Some y => Some y
  | None => p
  end.

Fixpoint dseg (h : gmap positive stringEntry) (p : ptr) (xs : list positive)
    (n : ptr) : Prop :=
  match xs with
  | [] => True
  | x :: rest =>
      h !! x = Some (Entry (first_or rest n) p) ∧ dseg h (Some x) rest n
  end.

(** The list header at [l] spans exactly the elements [xs], front to back. *)
Definition is_list (σ : state) (l : positive) (xs : list positive) : Prop :=
  lists σ !! l = Some (ListHdr (hd_error xs) (last xs)) ∧
  NoDup xs ∧
  dseg (elems σ) None xs None.

(** The elements [xs] form one ring, listed in [Next] order from any entry
    point: a segment entered from its own last element and left towards its
    own first element. *)
Definition is_ring (σ : state) (xs : list positive) : Prop :=
  xs ≠ [] ∧ NoDup xs ∧ dseg (elems σ) (last xs) xs (hd_error xs).

(** ** One-directional chains

    [chain f h xs n]: reading field [f] of each element of [xs] in turn gives
    the following element of [xs], and [n] at the last one. *)
Fixpoint chain (f : stringEntry → ptr) (h : gmap positive stringEntry)
    (xs : list positive) (n : ptr) : Prop :=
  match xs with
  | [] => True
  | x :: rest => f <$> h !! x = Some (first_or rest n) ∧ chain f h rest n
  end.

(** ** Operations never allocate or free

    Every operation only overwrites fields of objects that already exist,
    so the set of live elements and of live list headers is unchanged. *)
Definition keeps_dom {A} (m : M A) : Prop :=
  ∀ σ a σ', m σ = Some (a, σ') →
    dom (elems σ') = dom (elems σ) ∧ dom (lists σ') = dom (lists σ).

(** An element pointer that refers to a live element. *)
Definition allocated (σ : state) (e : positive) : Prop := is_Some (elems σ !! e).


(** ** The consistency invariant, as the specification words it

    [xs] is the sequence met by following [next] from [head] until [nil];
    its length is the length of the list. *)
Definition consistent (σ : state) (l : positive) : Prop :=
  ∃ (L : stringList) (xs : list positive) (fuel : nat),
    lists σ !! l = Some L ∧
    (* following next from head ends at nil, after the members xs *)
    iterate fuel (head L) σ = Some (xs, σ) ∧
    (* head == nil iff tail == nil iff length == 0 *)
    (head L = None ↔ tail L = None) ∧
    (tail L = None ↔ length xs = 0) ∧
    (* head.prev == nil and tail.next == nil when non-empty *)
    (∀ a, head L = Some a → eval (Prev (Some a)) σ = Some None) ∧
    (∀ b, tail L = Some b → eval (Next (Some b)) σ = Some None) ∧
    (* a.next == b implies b.prev == a for adjacent members *)
    (∀ a b, a ∈ xs → b ∈ xs →
       eval (Next (Some a)) σ = Some (Some b) →
       eval (Prev (Some b)) σ = Some (Some a)) ∧
    (* the next chain from head reaches tail with its last step *)
    last xs = tail L ∧
    (* the prev chain from tail is the exact reverse *)
    iterate_back fuel (tail L) σ = Some (reverse xs, σ).

(** ** Replaying a sequence of operations on one list *)
Inductive op :=
  | OpPushFront (e : positive)
  | OpPushBack (e : positive)
  | OpRemove (e : positive).

Definition op_elem (o : op) : positive :=
  match o with
  | OpPushFront e | OpPushBack e | OpRemove e => e
  end.

Definition run_op (l : ptr) (o : op) : M unit :=
  match o with
  | OpPushFront e => PushFront l (Some e)
  | OpPushBack e => PushBack l (Some e)
  | OpRemove e => Remove l (Some e)
  end.

Fixpoint replay (l : ptr) (ops : list op) : M unit :=
  match ops with
  | [] => mret tt
  | o :: rest => run_op l o;; replay l rest
  end.

(** What an operation does to the sequence of members. *)
Definition apply_op (xs : list positive) (o : op) : list positive :=
  match o with
  | OpPushFront e => e :: xs
  | OpPushBack e => xs ++ [e]
  | OpRemove e => filter (λ x, x ≠ e) xs
  end.

(** Every insert is of an element that is not a member, every remove of one
    that is. *)
Fixpoint admissible (xs : list positive) (ops : list op) : Prop :=
  match ops with
  | [] => True
  | o :: rest =>
      match o with
      | OpPushFront e | OpPushBack e => e ∉ xs
      | OpRemove e => e ∈ xs
      end ∧ admissible (apply_op xs o) rest
  end.

Definition is_insert (o : op) : bool :=
  match o with
  | OpPushFront _ | OpPushBack _ => true
  | OpRemove _ => false
  end.

Definition inserts (ops : list op) : nat := length (filter (λ o, is_insert o = true) ops).
Definition removes (ops : list op) : nat := length (filter (λ o, is_insert o = false) ops).

(** The members of a list are what its front-to-back traversal yields. *)
Definition members (σ : state) (l : positive) (xs : list positive) : Prop :=
  ∃ fuel, eval (traverse fuel (Some l)) σ = Some xs.

(** ** Concrete states

    [demo_lists]: list 10 is [1; 2; 3], list 11 is [5; 6], list 12 is
    empty, and the elements 4, 7, 8 and 9 are in no list (8 and 9 with
    stale links). *)
Definition demo_lists : state :=
  State
    (list_to_map
       [(1%positive, Entry (Some 2%positive) None);
        (2%positive, Entry (Some 3%positive) (Some 1%positive));
        (3%positive, Entry None (Some 2%positive));
        (4%positive, Entry None None);
        (5%positive, Entry (Some 6%positive) None);
        (6%positive, Entry None (Some 5%positive));
        (7%positive, Entry None None);
        (8%positive, Entry (Some 1%positive) (Some 1%positive));
        (9%positive, Entry None (Some 3%positive))])
    (list_to_map
       [(10%positive, ListHdr (Some 1%positive) (Some 3%positive));
        (11%positive, ListHdr (Some 5%positive) (Some 6%positive));
        (12%positive, ListHdr None None)]).

(** [demo_rings]: the ring 1 → 2 → 3 → 1, the singleton ring 4, the ring
    5 ⇄ 6, and the element 7 in no ring. *)
Definition demo_rings : state :=
  State
    (list_to_map
       [(1%positive, Entry (Some 2%positive) (Some 3%positive));
        (2%positive, Entry (Some 3%positive) (Some 1%positive));
        (3%positive, Entry (Some 1%positive) (Some 2%positive));
        (4%positive, Entry (Some 4%positive) (Some 4%positive));
        (5%positive, Entry (Some 6%positive) (Some 6%positive));
        (6%positive, Entry (Some 5%positive) (Some 5%positive));
        (7%positive, Entry None None)])
    ∅.

(** [demo_three]: list 10 is [1; 2], list 11 is [3], list 12 is [4; 5], and
    the element 6 is in no list. *)
Definition demo_three : state :=
  State
    (list_to_map
       [(1%positive, Entry (Some 2%positive) None);
        (2%positive, Entry None (Some 1%positive));
        (3%positive, Entry None None);
        (4%positive, Entry (Some 5%positive) None);
        (5%positive, Entry None (Some 4%positive));
        (6%positive, Entry None None)])
    (list_to_map
       [(10%positive, ListHdr (Some 1%positive) (Some 2%positive));
        (11%positive, ListHdr (Some 3%positive) (Some 3%positive));
        (12%positive, ListHdr (Some 4%positive) (Some 5%positive))]).

(** [demo_ring_as_list]: the ring 1 → 2 → 3 → 1, with the list header 10
    pointing into it. *)
Definition demo_ring_as_list : state :=
  State
    (list_to_map
       [(1%positive, Entry (Some 2%positive) (Some 3%positive));
        (2%positive, Entry (Some 3%positive) (Some 1%positive));
        (3%positive, Entry (Some 1%positive) (Some 2%positive))])
    (list_to_map [(10%positive, ListHdr (Some 1%positive) (Some 3%positive))]).
(** ** Segment lemmas *)

Section segments.
Implicit Types (h : gmap positive stringEntry) (p n : ptr).
Implicit Types (xs ys : list positive) (x y a : positive).

Lemma last_or_snoc xs y p : last_or (xs ++ [y]) p = Some y.
Proof. unfold last_or. by rewrite last_snoc. Qed.

Lemma last_or_cons x xs p : last_or (x :: xs) p = last_or xs (Some x).
Proof.
  unfold last_or. rewrite last_cons. by destruct (last xs).
Qed.

Lemma last_or_None xs : last_or xs None = last xs.
Proof. unfold last_or. by destruct (last xs). Qed.

Lemma first_or_None xs : first_or xs None = hd_error xs.
Proof. by destruct xs. Qed.

Lemma first_or_app xs ys n : first_or (xs ++ ys) n = first_or xs (first_or ys n).
Proof. by destruct xs. Qed.

Lemma last_or_app xs ys p : last_or (xs ++ ys) p = last_or ys (last_or xs p).
Proof.
  unfold last_or. rewrite last_app. by destruct (last ys).
Qed.

Lemma dseg_app h p xs ys n :
  dseg h p (xs ++ ys) n ↔
  dseg h p xs (first_or ys n) ∧ dseg h (last_or xs p) ys n.
Proof.
  revert p. induction xs as [|x xs IH]; intros p; simpl.
  - unfold last_or; simpl. tauto.
  - rewrite IH, first_or_app, last_or_cons. tauto.
Qed.

Lemma dseg_frame h p xs n a en :
  a ∉ xs → dseg h p xs n → dseg (<[a := en]> h) p xs n.
Proof.
  revert p. induction xs as [|x xs IH]; intros p Ha; simpl; [done|].
  apply not_elem_of_cons in Ha as [Hax Ha]. intros [Hx Hrest]. split.
  - by rewrite lookup_insert_ne.
  - by apply IH.
Qed.

Lemma dseg_lookup h p xs n x :
  dseg h p xs n → x ∈ xs → is_Some (h !! x).
Proof.
  revert p. induction xs as [|y xs IH]; intros p; simpl.
  - intros _ Hx. by apply elem_of_nil in Hx.
  - intros [Hy Hrest] [->|Hx]%elem_of_cons; eauto.
Qed.

(** Redirecting the way into a segment: only its first element changes. *)
Lemma dseg_set_entry h p p' x xs n :
  x ∉ xs → dseg h p (x :: xs) n →
  dseg (<[x := Entry (first_or xs n) p']> h) p' (x :: xs) n.
Proof.
  simpl. intros Hx [_ Hrest]. split.
  - by rewrite lookup_insert_eq.
  - by apply dseg_frame.
Qed.

(** Redirecting the way out of a segment: only its last element changes. *)
Lemma dseg_set_exit h p xs y n n' :
  y ∉ xs → dseg h p (xs ++ [y]) n →
  dseg (<[y := Entry n' (last_or xs p)]> h) p (xs ++ [y]) n'.
Proof.
  intros Hy [Hxs [Hlst _]]%dseg_app. apply dseg_app. simpl in *. split.
  - by apply dseg_frame.
  - by rewrite lookup_insert_eq.
Qed.

Lemma dseg_last h p xs y n :
  dseg h p (xs ++ [y]) n → h !! y = Some (Entry n (last_or xs p)).
Proof. intros [_ [Hy _]]%dseg_app. exact Hy. Qed.
End segments.

(** ** Running operations symbolically *)

Ltac unfold_ops :=
  unfold PushFront, PushBack, PushFrontList, PushBackList, InsertAfter,
    InsertBefore, Remove, Reset, Empty, Front, Back, stringRingRemove,
    stringRingAdd, stringRingInit, stringRingEmpty, Next, Prev, SetNext,
    SetPrev, get_head, get_tail, set_head, set_tail, linkerFor, deref, assign,
    deref_list, assign_list, exec, eval, mbind, M_bind, mret, M_ret.

Ltac lookup_step :=
  match goal with
  | |- context [ <[?a := _]> _ !! ?a ] => rewrite lookup_insert_eq
  | |- context [ <[?a := _]> _ !! ?b ] =>
      rewrite (lookup_insert_ne _ a b) by (congruence || set_solver)
  | H : ?h !! ?a = Some _ |- context [ ?h !! ?a ] => rewrite H
  | |- context [ decide (?a = ?b) ] =>
      first [ rewrite (decide_True (P := a = b)) by congruence
            | rewrite (decide_False (P := a = b)) by (congruence || set_solver) ]
  end.

Ltac run := unfold_ops; simpl; repeat (lookup_step; simpl).

(** Peel off the writes to elements outside the segment at hand. *)
Ltac frame :=
  match goal with
  | |- dseg (<[?a := _]> _) _ ?xs _ =>
      lazymatch xs with
      | context [a] => fail
      | _ => apply dseg_frame; [set_solver|]
      end
  end.

Ltac frames := repeat frame.

Section keeps_dom.
Lemma keeps_dom_ret {A} (a : A) : keeps_dom (mret a).
Proof. intros σ b σ' [= _ <-]. done. Qed.

Lemma keeps_dom_bind {A B} (m : M A) (k : A → M B) :
  keeps_dom m → (∀ a, keeps_dom (k a)) → keeps_dom (m ≫= k).
Proof.
  intros Hm Hk σ b σ'. unfold mbind, M_bind.
  destruct (m σ) as [[a σ1]|] eqn:E; [|done].
  intros Hrun. destruct (Hk _ _ _ _ Hrun) as [-> ->]. by eapply Hm.
Qed.

Lemma keeps_dom_deref e : keeps_dom (deref e).
Proof.
  intros σ en σ'. unfold deref.
  destruct e as [a|]; [|done]. destruct (elems σ !! a); [|done].
  by intros [= _ <-].
Qed.

Lemma keeps_dom_deref_list l : keeps_dom (deref_list l).
Proof.
  intros σ L σ'. unfold deref_list.
  destruct l as [a|]; [|done]. destruct (lists σ !! a); [|done].
  by intros [= _ <-].
Qed.

Lemma keeps_dom_assign e en : keeps_dom (assign e en).
Proof.
  intros σ u σ'. unfold assign.
  destruct e as [a|]; [|done]. destruct (elems σ !! a) eqn:E; [|done].
  intros ?; simplify_eq/=. split; [|done].
  apply dom_insert_lookup_L. by rewrite E.
Qed.

Lemma keeps_dom_assign_list l L : keeps_dom (assign_list l L).
Proof.
  intros σ u σ'. unfold assign_list.
  destruct l as [a|]; [|done]. destruct (lists σ !! a) eqn:E; [|done].
  intros ?; simplify_eq/=. split; [done|].
  apply dom_insert_lookup_L. by rewrite E.
Qed.
End keeps_dom.

Ltac keeps_dom_tac :=
  repeat first
    [ apply keeps_dom_ret
    | apply keeps_dom_deref
    | apply keeps_dom_deref_list
    | apply keeps_dom_assign
    | apply keeps_dom_assign_list
    | apply keeps_dom_bind; [|intros ?]
    | match goal with
      | |- keeps_dom (match ?x with _ => _ end) => destruct x
      | |- keeps_dom (if ?x then _ else _) => destruct x
      end ].

Section keeps_dom_ops.
Lemma keeps_dom_PushFront l e : keeps_dom (PushFront l e).
Proof. unfold PushFront, SetNext, SetPrev, get_head, set_head, set_tail. keeps_dom_tac. Qed.

Lemma keeps_dom_PushBack l e : keeps_dom (PushBack l e).
Proof. unfold PushBack, SetNext, SetPrev, get_tail, set_head, set_tail. keeps_dom_tac. Qed.

Lemma keeps_dom_Remove l e : keeps_dom (Remove l e).
Proof.
  unfold Remove, SetNext, SetPrev, Next, Prev, get_head, get_tail, set_head,
    set_tail. keeps_dom_tac.
Qed.
End keeps_dom_ops.

Lemma allocated_keeps_dom {A} (m : M A) σ a σ' e :
  keeps_dom m → m σ = Some (a, σ') → allocated σ e → allocated σ' e.
Proof.
  intros Hm Hrun. unfold allocated. rewrite <-!elem_of_dom.
  by destruct (Hm _ _ _ Hrun) as [-> _].
Qed.

Section chains.
Implicit Types (h : gmap positive stringEntry) (p n : ptr).
Implicit Types (xs ys : list positive) (f : stringEntry → ptr).

Lemma chain_app f h xs ys n :
  chain f h (xs ++ ys) n ↔ chain f h xs (first_or ys n) ∧ chain f h ys n.
Proof.
  induction xs as [|x xs IH]; simpl; [tauto|].
  rewrite IH, first_or_app. tauto.
Qed.

Lemma chain_det f h xs ys :
  chain f h xs None → chain f h ys None → hd_error xs = hd_error ys → xs = ys.
Proof.
  revert ys. induction xs as [|x xs IH]; intros [|y ys]; simpl; try done.
  intros [Hx Hxs] [Hy Hys] [= <-]. f_equal. apply IH; [done..|].
  rewrite Hx in Hy. rewrite <-!first_or_None. congruence.
Qed.

Lemma chain_NoDup f h xs : chain f h xs None → NoDup xs.
Proof.
  induction xs as [|x xs IH]; simpl; [constructor|].
  intros [Hx Hxs]. apply NoDup_cons. split; [|by apply IH].
  intros (r1 & r2 & ->)%list_elem_of_split.
  assert (Hsuf : chain f h (x :: r2) None) by (by apply chain_app in Hxs as [_ ?]).
  assert (Hall : chain f h (x :: r1 ++ x :: r2) None) by done.
  pose proof (chain_det _ _ _ _ Hall Hsuf eq_refl) as Heq.
  apply (f_equal length) in Heq. simpl in Heq. rewrite length_app in Heq.
  simpl in Heq. lia.
Qed.

Lemma entry_fields h x a b :
  h !! x = Some (Entry a b) ↔
  next <$> h !! x = Some a ∧ prev <$> h !! x = Some b.
Proof.
  destruct (h !! x) as [[a' b']|]; simpl; [|naive_solver].
  split; [by intros [= -> ->]|by intros [[= ->] [= ->]]].
Qed.

(** A doubly-linked segment is a [next] chain one way and a [prev] chain
    the other way. *)
Lemma dseg_chains h p xs n :
  dseg h p xs n ↔ chain next h xs n ∧ chain prev h (reverse xs) p.
Proof.
  revert p. induction xs as [|x xs IH]; intros p; simpl; [tauto|].
  rewrite reverse_cons, chain_app, IH, entry_fields. simpl. tauto.
Qed.
End chains.

(** ** Traversals compute the chain *)

Section walks.
Variable f : stringEntry → ptr.
Variable step : ptr → M ptr.
Hypothesis step_field : ∀ a σ,
  step (Some a) σ =
  match elems σ !! a with Some en => Some (f en, σ) | None => None end.

Lemma walk_chain fuel e σ xs σ' :
  walk step fuel e σ = Some (xs, σ') →
  σ' = σ ∧ e = hd_error xs ∧ chain f (elems σ) xs None.
Proof.
  revert e xs. induction fuel as [|fuel IH]; intros [a|] xs; simpl;
    try (by intros [= <- <-]); try done.
  unfold mbind, M_bind, linkerFor. rewrite step_field.
  destruct (elems σ !! a) as [en|] eqn:Ha; [|done].
  destruct (walk step fuel (f en) σ) as [[rest σ1]|] eqn:Hw; [|done].
  intros [= <- <-]. apply IH in Hw as (-> & Hhd & Hch).
  repeat split; [|done]. simpl. rewrite Ha. simpl.
  by rewrite first_or_None, Hhd.
Qed.

Lemma chain_walk fuel σ xs :
  chain f (elems σ) xs None → length xs ≤ fuel →
  walk step fuel (hd_error xs) σ = Some (xs, σ).
Proof.
  revert fuel. induction xs as [|x xs IH]; intros fuel; simpl.
  { by destruct fuel. }
  intros [Hx Hxs] Hlen. destruct fuel as [|fuel]; [lia|]. simpl.
  unfold mbind, M_bind, linkerFor. rewrite step_field.
  destruct (elems σ !! x) as [en|]; [|done]. simpl in Hx.
  injection Hx as ->. rewrite first_or_None, IH; [done..|lia].
Qed.
End walks.

Lemma Next_field a σ :
  Next (Some a) σ =
  match elems σ !! a with Some en => Some (next en, σ) | None => None end.
Proof. unfold_ops. by destruct (elems σ !! a). Qed.

Lemma Prev_field a σ :
  Prev (Some a) σ =
  match elems σ !! a with Some en => Some (prev en, σ) | None => None end.
Proof. unfold_ops. by destruct (elems σ !! a). Qed.

Section list_observations.
Implicit Types (σ : state) (l : positive) (xs : list positive).

Lemma is_list_Front σ l xs :
  is_list σ l xs → Front (Some l) σ = Some (hd_error xs, σ).
Proof. intros (Hl & _). unfold_ops. by rewrite Hl. Qed.

Lemma is_list_Back σ l xs :
  is_list σ l xs → Back (Some l) σ = Some (last xs, σ).
Proof. intros (Hl & _). unfold_ops. by rewrite Hl. Qed.

Lemma is_list_Empty σ l xs :
  is_list σ l xs → Empty (Some l) σ = Some (bool_decide (xs = []), σ).
Proof.
  intros (Hl & _). unfold_ops. rewrite Hl. simpl. do 2 f_equal.
  apply bool_decide_ext, head_None.
Qed.

Lemma is_list_traverse σ l xs fuel :
  is_list σ l xs → length xs ≤ fuel →
  traverse fuel (Some l) σ = Some (xs, σ).
Proof.
  intros Hl Hfuel. unfold traverse, mbind, M_bind.
  rewrite (is_list_Front _ _ _ Hl). destruct Hl as (_ & _ & Hseg).
  apply dseg_chains in Hseg as [Hn _].
  by apply (chain_walk next Next Next_field).
Qed.

Lemma is_list_traverse_back σ l xs fuel :
  is_list σ l xs → length xs ≤ fuel →
  traverse_back fuel (Some l) σ = Some (reverse xs, σ).
Proof.
  intros Hl Hfuel. unfold traverse_back, mbind, M_bind.
  rewrite (is_list_Back _ _ _ Hl). destruct Hl as (_ & _ & Hseg).
  apply dseg_chains in Hseg as [_ Hp].
  rewrite <-head_reverse.
  apply (chain_walk prev Prev Prev_field); [done|].
  by rewrite length_reverse.
Qed.
End list_observations.

Lemma wrap_int_small z : (- 2 ^ 63 ≤ z < 2 ^ 63)%Z → wrap_int z = z.
Proof. intros Hz. unfold wrap_int. rewrite Z.mod_small; lia. Qed.

Lemma Len_loop_chain fuel σ xs c :
  chain next (elems σ) xs None → length xs ≤ fuel →
  (0 ≤ c)%Z → (c + Z.of_nat (length xs) < 2 ^ 63)%Z →
  Len_loop fuel (hd_error xs) c σ = Some ((c + Z.of_nat (length xs))%Z, σ).
Proof.
  revert fuel c. induction xs as [|x xs IH]; intros fuel c; simpl.
  { intros _ _ _ _. rewrite Z.add_0_r. by destruct fuel. }
  intros [Hx Hxs] Hlen Hc Hbound. destruct fuel as [|fuel]; [lia|]. simpl.
  unfold mbind, M_bind, linkerFor. rewrite Next_field.
  destruct (elems σ !! x) as [en|]; [|done]. simpl in Hx.
  injection Hx as ->. rewrite first_or_None, wrap_int_small by lia.
  rewrite IH; [|done|lia..]. do 2 f_equal. lia.
Qed.

Lemma is_list_Len σ l xs fuel :
  is_list σ l xs → length xs ≤ fuel → (Z.of_nat (length xs) < 2 ^ 63)%Z →
  Len fuel (Some l) σ = Some (Z.of_nat (length xs), σ).
Proof.
  intros Hl Hfuel Hbound. unfold Len, mbind, M_bind.
  rewrite (is_list_Front _ _ _ Hl). destruct Hl as (_ & _ & Hseg).
  apply dseg_chains in Hseg as [Hn _].
  by rewrite Len_loop_chain.
Qed.

(** Reading the links of a member. *)
Lemma is_list_lookup σ l l1 a l2 :
  is_list σ l (l1 ++ a :: l2) →
  elems σ !! a = Some (Entry (hd_error l2) (last l1)).
Proof.
  intros (_ & _ & [_ [Ha _]]%dseg_app).
  by rewrite first_or_None, last_or_None in Ha.
Qed.

Lemma is_list_allocated σ l xs x : is_list σ l xs → x ∈ xs → allocated σ x.
Proof. intros (_ & _ & Hseg) Hx. by eapply dseg_lookup. Qed.

(** ** Specifications of the list operations on the invariant *)

Ltac split_NoDup :=
  repeat match goal with
  | H : NoDup (_ ++ _) |- _ => apply NoDup_app in H as (? & ? & ?)
  | H : NoDup (_ :: _) |- _ => apply NoDup_cons in H as [? ?]
  | H : ?x ∉ _ :: _ |- _ => apply not_elem_of_cons in H as [? ?]
  | H : ?x ∉ _ ++ _ |- _ => apply not_elem_of_app in H as [? ?]
  end.

Ltac solve_NoDup :=
  rewrite ?NoDup_app, ?NoDup_cons, ?NoDup_app, ?NoDup_cons;
  repeat split; try done; try apply NoDup_nil_2; set_solver.

Section list_specs.
Implicit Types (σ : state) (l e : positive) (xs : list positive).

Lemma PushFront_spec σ l xs e :
  is_list σ l xs → allocated σ e → e ∉ xs →
  ∃ σ', PushFront (Some l) (Some e) σ = Some (tt, σ') ∧ is_list σ' l (e :: xs).
Proof.
  destruct σ as [h ls]. intros (Hl & Hnd & Hseg) [en He] Hfresh. simpl in *.
  destruct xs as [|x xs]; [|destruct Hseg as [Hx Hseg]]; split_NoDup;
    run; (eexists; split; [reflexivity|]); (split; [|split]); simpl.
  - by rewrite lookup_insert_eq.
  - solve_NoDup.
  - by rewrite lookup_insert_eq.
  - by rewrite lookup_insert_eq.
  - solve_NoDup.
  - run. repeat split. by frames.
Qed.

Lemma PushBack_spec σ l xs e :
  is_list σ l xs → allocated σ e → e ∉ xs →
  ∃ σ', PushBack (Some l) (Some e) σ = Some (tt, σ') ∧ is_list σ' l (xs ++ [e]).
Proof.
  destruct σ as [h ls]. intros (Hl & Hnd & Hseg) [en He] Hfresh. simpl in *.
  destruct xs as [|x xs _] using rev_ind.
  - run. eexists; split; [reflexivity|]. split; [|split]; simpl.
    + by rewrite lookup_insert_eq.
    + solve_NoDup.
    + by rewrite lookup_insert_eq.
  - pose proof (dseg_last _ _ _ _ _ Hseg) as Hx. split_NoDup.
    rewrite last_snoc in Hl.
    run. eexists; split; [reflexivity|]. split; [|split]; simpl.
    + rewrite lookup_insert_eq, last_snoc. do 2 f_equal. by destruct xs.
    + solve_NoDup.
    + apply dseg_app. simpl. rewrite last_or_snoc. run. split; [|done].
      rewrite last_or_None in Hx.
      replace (last xs) with (last_or xs None) by apply last_or_None.
      apply (dseg_set_exit _ _ _ _ None); [set_solver|]. by frames.
Qed.
End list_specs.

Section list_splice_specs.
Implicit Types (σ : state) (xs : list positive).

Lemma hd_error_app_cons (l1 : list positive) b (l2 l2' : list positive) :
  hd_error (l1 ++ b :: l2) = hd_error (l1 ++ b :: l2').
Proof. by destruct l1. Qed.

Lemma InsertAfter_spec σ (l : positive) (l1 : list positive) b l2 e :
  is_list σ l (l1 ++ b :: l2) → allocated σ e → e ∉ l1 ++ b :: l2 →
  ∃ σ', InsertAfter (Some l) (Some b) (Some e) σ = Some (tt, σ') ∧
    is_list σ' l (l1 ++ b :: e :: l2).
Proof.
  destruct σ as [h ls]. intros (Hl & Hnd & Hseg) [en He] Hfresh. simpl in *.
  apply dseg_app in Hseg as [Hs1 [Hb Hs2]]. simpl in Hb. split_NoDup.
  destruct l2 as [|c l2]; [|destruct Hs2 as [Hc Hs2]]; split_NoDup;
    run; (eexists; split; [reflexivity|]); (split; [|split]); simpl.
  - rewrite lookup_insert_eq. do 2 f_equal; [apply hd_error_app_cons|].
    by rewrite !last_app_cons.
  - solve_NoDup.
  - apply dseg_app. simpl. run. repeat split. by frames.
  - rewrite Hl. do 2 f_equal; [apply hd_error_app_cons|].
    by rewrite !last_app_cons.
  - solve_NoDup.
  - apply dseg_app. simpl. run. repeat split; by frames.
Qed.

Lemma InsertBefore_spec σ (l : positive) (l1 : list positive) a l2 e :
  is_list σ l (l1 ++ a :: l2) → allocated σ e → e ∉ l1 ++ a :: l2 →
  ∃ σ', InsertBefore (Some l) (Some a) (Some e) σ = Some (tt, σ') ∧
    is_list σ' l (l1 ++ e :: a :: l2).
Proof.
  destruct σ as [h ls]. intros (Hl & Hnd & Hseg) [en He] Hfresh. simpl in *.
  apply dseg_app in Hseg as [Hs1 [Ha Hs2]]. simpl in Ha. split_NoDup.
  destruct l1 as [|c l1 _] using rev_ind.
  - run. eexists; split; [reflexivity|]. split; [|split]; simpl.
    + by rewrite lookup_insert_eq.
    + solve_NoDup.
    + run. repeat split. by frames.
  - pose proof (dseg_last _ _ _ _ _ Hs1) as Hc. rewrite last_or_snoc in Ha.
    split_NoDup.
    run. eexists; split; [reflexivity|]. split; [|split]; simpl.
    + rewrite Hl. do 2 f_equal.
      * rewrite <-!app_assoc. apply hd_error_app_cons.
      * by rewrite !last_app_cons, !last_cons_cons.
    + solve_NoDup.
    + apply dseg_app. simpl. rewrite last_or_snoc. run. repeat split; [|by frames].
      apply (dseg_set_exit _ _ _ _ (Some a)); [set_solver|]. by frames.
Qed.

Lemma Remove_spec σ (l : positive) (l1 : list positive) e l2 :
  is_list σ l (l1 ++ e :: l2) →
  ∃ σ', Remove (Some l) (Some e) σ = Some (tt, σ') ∧
    is_list σ' l (l1 ++ l2) ∧
    elems σ' !! e = Some (Entry None None).
Proof.
  destruct σ as [h ls]. intros (Hl & Hnd & Hseg). simpl in *.
  apply dseg_app in Hseg as [Hs1 [He Hs2]]. simpl in He.
  rewrite last_or_None in He. split_NoDup.
  destruct l1 as [|y l1 _] using rev_ind;
    [|pose proof (dseg_last _ _ _ _ _ Hs1) as Hy; rewrite last_snoc in He;
      split_NoDup];
    (destruct l2 as [|z l2]; [|destruct Hs2 as [Hz Hs2]; split_NoDup]);
    simpl in *; rewrite ?last_snoc in Hl; run.
  - eexists; split; [reflexivity|]. unfold is_list. simpl. run.
    by split_and!.
  - eexists; split; [reflexivity|]. unfold is_list. simpl. run.
    split_and!; try done; [solve_NoDup|by frames].
  - eexists; split; [reflexivity|]. unfold is_list. simpl. run.
    rewrite app_nil_r, last_snoc. split_and!; try done.
    + rewrite <-app_assoc in Hl. do 2 f_equal. by destruct l1.
    + solve_NoDup.
    + frames. by apply (dseg_set_exit _ _ _ _ (Some e)); [set_solver|].
  - eexists; split; [reflexivity|]. unfold is_list. simpl. run.
    split_and!; try done.
    + do 2 f_equal.
      * rewrite <-!app_assoc. apply hd_error_app_cons.
      * by rewrite !last_app_cons, !last_cons_cons.
    + solve_NoDup.
    + apply dseg_app. simpl. rewrite last_or_snoc. run.
      split_and!; try done; [|by frames].
      frames. by apply (dseg_set_exit _ _ _ _ (Some e)); [set_solver|].
Qed.
End list_splice_specs.

Section list_concat_specs.
Implicit Types (σ : state) (xs ms : list positive).

Lemma Reset_spec σ (l : positive) L :
  lists σ !! l = Some L →
  Reset (Some l) σ =
  Some (tt, State (elems σ) (<[l := ListHdr None None]> (lists σ))).
Proof.
  destruct σ as [h ls]. simpl. intros Hl. run. by rewrite insert_insert_eq.
Qed.

(** Two lists without a common element that share a header are both
    empty. *)
Lemma shared_header_empty σ (l : positive) xs ms :
  is_list σ l xs → is_list σ l ms → (∀ x, x ∈ xs → x ∉ ms) →
  xs = [] ∧ ms = [].
Proof.
  intros (Hl & _) (Hm & _) Hdisj. rewrite Hl in Hm.
  injection Hm as Hhd _. destruct xs as [|x xs], ms as [|y ms]; try done.
  injection Hhd as ->. exfalso. apply (Hdisj y); set_solver.
Qed.

Lemma PushFrontList_spec σ (l m : positive) xs ms :
  is_list σ l xs → is_list σ m ms → (∀ x, x ∈ xs → x ∉ ms) →
  ∃ σ', PushFrontList (Some l) (Some m) σ = Some (tt, σ') ∧
    is_list σ' l (ms ++ xs) ∧ is_list σ' m [].
Proof.
  intros Hl Hm Hdisj. destruct (decide (l = m)) as [->|Hlm].
  { destruct (shared_header_empty _ _ _ _ Hl Hm Hdisj) as [-> ->].
    destruct σ as [h ls]. destruct Hl as (Hl & _). simpl in *.
    run. eexists; split; [reflexivity|]. unfold is_list; simpl. run.
    split_and!; try done; constructor. }
  destruct σ as [h ls].
  destruct Hl as (Hl & Hndl & Hsl), Hm as (Hm & Hndm & Hsm). simpl in *.
  destruct xs as [|x xs].
  { run. eexists; split; [reflexivity|]. unfold is_list; simpl. run.
    rewrite app_nil_r. split_and!; try done; constructor. }
  destruct Hsl as [Hx Hsl].
  destruct ms as [|mt ms _] using rev_ind.
  { run. eexists; split; [reflexivity|]. unfold is_list; simpl. run.
    split_and!; try done; constructor. }
  pose proof (dseg_last _ _ _ _ _ Hsm) as Hmt.
  destruct (hd_error (ms ++ [mt])) as [mh|] eqn:Hmh; [|by destruct ms].
  rewrite last_snoc in Hm.
  assert (x ≠ mt) by (intros ->; apply (Hdisj mt); set_solver).
  split_NoDup.
  run. eexists; split; [reflexivity|]. unfold is_list; simpl. run.
  split_and!; try done.
  - do 2 f_equal; [by rewrite head_app, Hmh|by rewrite last_app_cons].
  - solve_NoDup.
  - apply dseg_app. simpl. rewrite last_or_snoc. run.
    split_and!; try done; [|frames; done].
    apply (dseg_set_exit _ _ _ _ None); [set_solver|]. frames. done.
Qed.

Lemma PushBackList_spec σ (l m : positive) xs ms :
  is_list σ l xs → is_list σ m ms → (∀ x, x ∈ xs → x ∉ ms) →
  ∃ σ', PushBackList (Some l) (Some m) σ = Some (tt, σ') ∧
    is_list σ' l (xs ++ ms) ∧ is_list σ' m [].
Proof.
  intros Hl Hm Hdisj. destruct (decide (l = m)) as [->|Hlm].
  { destruct (shared_header_empty _ _ _ _ Hl Hm Hdisj) as [-> ->].
    destruct σ as [h ls]. destruct Hl as (Hl & _). simpl in *.
    run. eexists; split; [reflexivity|]. unfold is_list; simpl. run.
    split_and!; try done; constructor. }
  destruct σ as [h ls].
  destruct Hl as (Hl & Hndl & Hsl), Hm as (Hm & Hndm & Hsm). simpl in *.
  destruct xs as [|lt xs _] using rev_ind.
  { run. eexists; split; [reflexivity|]. unfold is_list; simpl. run.
    split_and!; try done; constructor. }
  pose proof (dseg_last _ _ _ _ _ Hsl) as Hlt.
  destruct (hd_error (xs ++ [lt])) as [lh|] eqn:Hlh; [|by destruct xs].
  rewrite last_snoc in Hl.
  destruct ms as [|mh ms].
  { run. eexists; split; [reflexivity|]. unfold is_list; simpl. run.
    rewrite app_nil_r, last_snoc, Hlh. split_and!; try done; constructor. }
  destruct Hsm as [Hmh Hsm].
  assert (lt ≠ mh) by (intros ->; apply (Hdisj mh); set_solver).
  split_NoDup.
  run. eexists; split; [reflexivity|]. unfold is_list; simpl. run.
  split_and!; try done.
  - do 2 f_equal; [by rewrite head_app, Hlh|by rewrite last_app_cons].
  - solve_NoDup.
  - apply dseg_app. simpl. rewrite last_or_snoc. run.
    split_and!; try done; [|frames; done].
    frames. by apply (dseg_set_exit _ _ _ _ None); [set_solver|].
Qed.
End list_concat_specs.

(** ** The two forms of the invariant agree *)

Section consistent.
Implicit Types (σ : state) (xs : list positive).

Lemma is_list_Next σ (l : positive) (l1 : list positive) a l2 :
  is_list σ l (l1 ++ a :: l2) → eval (Next (Some a)) σ = Some (hd_error l2).
Proof.
  intros Ha%is_list_lookup. unfold eval. rewrite Next_field, Ha. done.
Qed.

Lemma is_list_Prev σ (l : positive) (l1 : list positive) a l2 :
  is_list σ l (l1 ++ a :: l2) → eval (Prev (Some a)) σ = Some (last l1).
Proof.
  intros Ha%is_list_lookup. unfold eval. rewrite Prev_field, Ha. done.
Qed.

Lemma is_list_consistent σ (l : positive) xs :
  is_list σ l xs → consistent σ l.
Proof.
  intros Hl. pose proof Hl as (Hhdr & Hnd & Hseg).
  pose proof Hseg as [Hn Hp]%dseg_chains.
  exists (ListHdr (hd_error xs) (last xs)), xs, (length xs). simpl.
  split_and!; try done.
  - by apply (chain_walk next Next Next_field).
  - by rewrite head_None, last_None.
  - by rewrite last_None, length_zero_iff_nil.
  - intros a (rest & ->)%head_Some.
    by rewrite (is_list_Prev σ l [] a rest).
  - intros b (rest & ->)%last_Some.
    by rewrite (is_list_Next σ l rest b []).
  - intros a b (l1 & l2 & ->)%list_elem_of_split _.
    rewrite (is_list_Next σ l l1 a l2) by done.
    intros [= Hb]. destruct l2 as [|b' l2]; simplify_eq/=.
    rewrite (is_list_Prev σ l (l1 ++ [a]) b l2).
    + by rewrite last_snoc.
    + by rewrite <-app_assoc.
  - rewrite <-head_reverse.
    apply (chain_walk prev Prev Prev_field); [done|].
    by rewrite length_reverse.
Qed.

Lemma consistent_is_list σ (l : positive) :
  consistent σ l → ∃ xs, is_list σ l xs.
Proof.
  intros ([hd tl] & xs & fuel & Hhdr & Hfw & _ & _ & _ & _ & _ & Hlast & Hbw).
  simpl in *. exists xs.
  apply (walk_chain next Next Next_field) in Hfw as (_ & -> & Hn).
  apply (walk_chain prev Prev Prev_field) in Hbw as (_ & _ & Hp).
  split_and!.
  - by rewrite Hhdr, Hlast.
  - by eapply chain_NoDup.
  - by apply dseg_chains.
Qed.

Lemma consistent_iff σ (l : positive) :
  consistent σ l ↔ ∃ xs, is_list σ l xs.
Proof.
  split; [apply consistent_is_list|]. intros [xs Hl]. by eapply is_list_consistent.
Qed.
End consistent.

(** ** Replay *)

Section replay.
Implicit Types (σ : state) (xs : list positive) (ops : list op).

Lemma filter_ne_id (e : positive) xs :
  e ∉ xs → filter (λ x, x ≠ e) xs = xs.
Proof.
  induction xs as [|x xs IH]; [done|].
  intros [Hne Hxs]%not_elem_of_cons.
  rewrite filter_cons_True by done. by rewrite IH.
Qed.

Lemma filter_ne_split (e : positive) (l1 l2 : list positive) :
  NoDup (l1 ++ e :: l2) → filter (λ x, x ≠ e) (l1 ++ e :: l2) = l1 ++ l2.
Proof.
  intros Hnd. split_NoDup.
  rewrite filter_app, filter_cons_False by naive_solver.
  rewrite !filter_ne_id; [done| |]; set_solver.
Qed.

Lemma Remove_filter_spec σ (l : positive) xs e :
  is_list σ l xs → e ∈ xs →
  ∃ σ', Remove (Some l) (Some e) σ = Some (tt, σ') ∧
    is_list σ' l (filter (λ x, x ≠ e) xs) ∧
    elems σ' !! e = Some (Entry None None) ∧
    S (length (filter (λ x, x ≠ e) xs)) = length xs.
Proof.
  intros Hl (l1 & l2 & ->)%list_elem_of_split.
  pose proof Hl as (_ & Hnd & _).
  rewrite filter_ne_split by done.
  destruct (Remove_spec _ _ _ _ _ Hl) as (σ' & Hrun & Hl' & He).
  exists σ'. split_and!; try done.
  rewrite !length_app. simpl. lia.
Qed.

Lemma inserts_cons o ops :
  inserts (o :: ops) = (if is_insert o then S (inserts ops) else inserts ops).
Proof.
  unfold inserts. destruct (is_insert o) eqn:E.
  - by rewrite filter_cons_True.
  - rewrite filter_cons_False; [done|]. by rewrite E.
Qed.

Lemma removes_cons o ops :
  removes (o :: ops) = (if is_insert o then removes ops else S (removes ops)).
Proof.
  unfold removes. destruct (is_insert o) eqn:E.
  - rewrite filter_cons_False; [done|]. by rewrite E.
  - by rewrite filter_cons_True.
Qed.

Lemma inserts_le_length ops : inserts ops ≤ length ops.
Proof. apply length_filter. Qed.

Lemma replay_spec σ (l : positive) xs ops :
  is_list σ l xs →
  (∀ o, o ∈ ops → allocated σ (op_elem o)) →
  admissible xs ops →
  ∃ σ', replay (Some l) ops σ = Some (tt, σ') ∧
    is_list σ' l (foldl apply_op xs ops) ∧
    length (foldl apply_op xs ops) + removes ops = length xs + inserts ops.
Proof.
  revert σ xs. induction ops as [|o ops IH]; intros σ xs Hl Halloc Hadm.
  { exists σ. by split_and!. }
  destruct Hadm as [Ho Hadm]. simpl.
  assert (∃ σ1, run_op (Some l) o σ = Some (tt, σ1) ∧
            is_list σ1 l (apply_op xs o) ∧
            length (apply_op xs o) + (if is_insert o then 0 else 1) =
            length xs + (if is_insert o then 1 else 0) ∧
            keeps_dom (run_op (Some l) o)) as (σ1 & Hrun & Hl1 & Hlen & Hdom).
  { assert (allocated σ (op_elem o)) as Ha by (apply Halloc; set_solver).
    destruct o as [e|e|e]; simpl in *.
    - destruct (PushFront_spec _ _ _ _ Hl Ha Ho) as (σ1 & ? & ?).
      exists σ1. split_and!; [done..|lia|apply keeps_dom_PushFront].
    - destruct (PushBack_spec _ _ _ _ Hl Ha Ho) as (σ1 & ? & ?).
      exists σ1. split_and!; [done..| |apply keeps_dom_PushBack].
      rewrite length_app. simpl. lia.
    - destruct (Remove_filter_spec _ _ _ _ Hl Ho) as (σ1 & ? & ? & _ & ?).
      exists σ1. split_and!; [done..|lia|apply keeps_dom_Remove]. }
  destruct (IH σ1 (apply_op xs o) Hl1) as (σ' & Hrest & Hl' & Hlen'); [|done|].
  { intros o' Ho'. eapply allocated_keeps_dom; [done..|].
    apply Halloc. set_solver. }
  exists σ'. split_and!; [|done|].
  - unfold mbind, M_bind. by rewrite Hrun.
  - rewrite inserts_cons, removes_cons. destruct (is_insert o); lia.
Qed.

Lemma keeps_dom_replay l ops : keeps_dom (replay l ops).
Proof.
  induction ops as [|o ops IH]; simpl; [apply keeps_dom_ret|].
  apply keeps_dom_bind; [|done].
  destruct o; [apply keeps_dom_PushFront|apply keeps_dom_PushBack|
    apply keeps_dom_Remove].
Qed.

(** A list has no more members than there are live elements. *)
Lemma is_list_length_size σ (l : positive) xs :
  is_list σ l xs → length xs ≤ size (elems σ).
Proof.
  intros (_ & Hnd & Hseg).
  rewrite <-(size_list_to_set (C := gset positive)) by done.
  rewrite <-size_dom. apply subseteq_size.
  intros x Hx%elem_of_list_to_set. apply elem_of_dom. by eapply dseg_lookup.
Qed.
End replay.

(** ** Rings *)

Section rings.
Implicit Types (σ : state) (xs ys : list positive).

Lemma first_or_snoc xs (z : positive) n n' :
  first_or (xs ++ [z]) n = first_or (xs ++ [z]) n'.
Proof. by destruct xs. Qed.

Lemma last_or_cons_any (x : positive) xs p p' :
  last_or (x :: xs) p = last_or (x :: xs) p'.
Proof. by rewrite !last_or_cons. Qed.

Lemma is_ring_rotate σ xs ys : is_ring σ (xs ++ ys) → is_ring σ (ys ++ xs).
Proof.
  destruct xs as [|x xs]; [by rewrite app_nil_r|].
  destruct ys as [|y ys]; [by rewrite app_nil_r|].
  intros (_ & Hnd & Hseg). split_and!; [done| |].
  - by rewrite (comm app).
  - rewrite <-last_or_None, <-first_or_None in Hseg |- *.
    rewrite last_or_app, first_or_app in Hseg |- *.
    apply dseg_app in Hseg as [H1 H2]. apply dseg_app. simpl in *.
    rewrite !last_or_cons in *. simpl in *. tauto.
Qed.

(** Any member can serve as the entry point of its ring. *)
Lemma is_ring_from σ (l1 : list positive) e l2 :
  is_ring σ (l1 ++ e :: l2) ↔ is_ring σ (e :: l2 ++ l1).
Proof.
  split.
  - apply (is_ring_rotate σ l1 (e :: l2)).
  - apply (is_ring_rotate σ (e :: l2) l1).
Qed.

Lemma Next_n_dseg h ls p xs n k :
  dseg h p xs n → k < length xs →
  Next_n k (hd_error xs) (State h ls) = Some (xs !! k, State h ls).
Proof.
  revert p k. induction xs as [|x xs IH]; intros p k; simpl; [lia|].
  intros [Hx Hxs] Hk. destruct k as [|k]; [done|]. simpl.
  unfold mbind, M_bind, linkerFor. rewrite Next_field. simpl. rewrite Hx. simpl.
  destruct xs as [|y xs]; [simpl in *; lia|].
  apply (IH (Some x)); [done|simpl in *; lia].
Qed.

Lemma Next_n_dseg_full h ls p xs n :
  dseg h p xs n → xs ≠ [] →
  Next_n (length xs) (hd_error xs) (State h ls) = Some (n, State h ls).
Proof.
  revert p. induction xs as [|x xs IH]; intros p; simpl; [done|].
  intros [Hx Hxs] _.
  unfold mbind, M_bind, linkerFor. rewrite Next_field. simpl. rewrite Hx. simpl.
  destruct xs as [|y xs]; [done|]. by apply (IH (Some x)).
Qed.

Lemma is_ring_Next_n σ e rest k :
  is_ring σ (e :: rest) → k < length (e :: rest) →
  Next_n k (Some e) σ = Some ((e :: rest) !! k, σ).
Proof.
  destruct σ as [h ls]. intros (_ & _ & Hseg) Hk.
  by apply (Next_n_dseg _ _ _ (e :: rest) _ _ Hseg).
Qed.

Lemma is_ring_Next_n_full σ e rest :
  is_ring σ (e :: rest) →
  Next_n (length (e :: rest)) (Some e) σ = Some (Some e, σ).
Proof.
  destruct σ as [h ls]. intros (_ & _ & Hseg).
  by apply (Next_n_dseg_full _ _ _ (e :: rest) _ Hseg).
Qed.

Lemma stringRingInit_spec σ e :
  allocated σ e →
  ∃ σ', stringRingInit (Some e) σ = Some (tt, σ') ∧ is_ring σ' [e].
Proof.
  destruct σ as [h ls]. intros [en He]. simpl in *. run.
  eexists; split; [reflexivity|]. unfold is_ring; simpl. run.
  split_and!; try done. solve_NoDup.
Qed.

Lemma stringRingAdd_spec σ old rest new :
  is_ring σ (old :: rest) → allocated σ new → new ∉ old :: rest →
  ∃ σ', stringRingAdd (Some old) (Some new) σ = Some (tt, σ') ∧
    is_ring σ' (old :: new :: rest).
Proof.
  destruct σ as [h ls]. intros (_ & Hnd & Hseg) [en He] Hfresh.
  simpl in Hseg, He. destruct Hseg as [Hold Hseg]. split_NoDup.
  destruct rest as [|c rest]; [|destruct Hseg as [Hc Hseg]]; split_NoDup;
    simpl in *; run; (eexists; split; [reflexivity|]); unfold is_ring; simpl;
    run; (split_and!; try done).
  - solve_NoDup.
  - solve_NoDup.
  - by frames.
Qed.

Lemma stringRingRemove_spec σ e rest :
  is_ring σ (e :: rest) →
  ∃ σ', stringRingRemove (Some e) σ = Some (tt, σ') ∧
    is_ring σ' [e] ∧
    (rest ≠ [] → is_ring σ' rest) ∧
    (∀ nx pv, elems σ !! e = Some (Entry (Some nx) (Some pv)) →
       next <$> elems σ' !! pv = Some (Some nx) ∧
       prev <$> elems σ' !! nx = Some (Some pv)).
Proof.
  destruct σ as [h ls]. intros (_ & Hnd & Hseg).
  simpl in Hseg. destruct Hseg as [He Hseg]. split_NoDup.
  destruct rest as [|c rest]; [|destruct Hseg as [Hc Hseg]; split_NoDup].
  { simpl in *. run. eexists; split; [reflexivity|]. unfold is_ring; simpl.
    run. split_and!; try done; [solve_NoDup|].
    intros nx pv [= <- <-]. by run. }
  destruct rest as [|z mid _] using rev_ind.
  { simpl in *. run. eexists; split; [reflexivity|]. unfold is_ring; simpl.
    run. split_and!; try done; [solve_NoDup| |].
    - intros _. split_and!; try done. solve_NoDup.
    - intros nx pv [= <- <-]. by run. }
  pose proof (dseg_last _ _ _ _ _ Hseg) as Hz. split_NoDup.
  rewrite last_cons, last_cons, last_snoc in He. simpl in Hc.
  assert (c ≠ z) by set_solver. assert (e ≠ z) by set_solver.
  simpl. run. eexists; split; [reflexivity|]. unfold is_ring; simpl.
  run. split_and!; try done; [solve_NoDup| |].
  - intros _. split_and!; try done; [solve_NoDup| |]; simpl.
    + rewrite last_cons, last_snoc. do 2 f_equal. apply first_or_snoc.
    + frames. apply (dseg_set_exit _ _ _ _ (Some e)); [set_solver|].
      by frames.
  - intros nx pv [= <- <-]. by run.
Qed.
End rings.
(** ** Deciding the invariants on concrete states *)

Global Instance dseg_dec h p xs n : Decision (dseg h p xs n).
Proof. revert p. induction xs as [|x xs IH]; intros p; simpl; apply _. Defined.

Global Instance is_list_dec σ l xs : Decision (is_list σ l xs).
Proof. unfold is_list. apply _. Defined.

Global Instance is_ring_dec σ xs : Decision (is_ring σ xs).
Proof. unfold is_ring. apply _. Defined.

Global Instance allocated_dec σ e : Decision (allocated σ e).
Proof. unfold allocated. apply _. Defined.

Ltac by_compute :=
  match goal with
  | |- ?P => apply (bool_decide_unpack P); vm_compute; exact I
  end.

(** ** Members of a consistent list *)

Lemma members_is_list σ (l : positive) (xs : list positive) :
  consistent σ l → members σ l xs → is_list σ l xs.
Proof.
  intros [xs' Hl]%consistent_is_list [fuel Htr].
  unfold eval, traverse, mbind, M_bind in Htr.
  rewrite (is_list_Front _ _ _ Hl) in Htr.
  destruct (iterate fuel (hd_error xs') σ) as [[ys σ1]|] eqn:Hit; simplify_eq/=.
  apply (walk_chain next Next Next_field) in Hit as (_ & Hhd & Hch).
  pose proof Hl as (Hhdr & Hnd & [Hn _]%dseg_chains).
  by rewrite (chain_det _ _ _ _ Hch Hn).
Qed.

Lemma is_list_members σ (l : positive) (xs : list positive) :
  is_list σ l xs → members σ l xs.
Proof.
  intros Hl. exists (length xs). unfold eval.
  by rewrite (is_list_traverse _ _ _ _ Hl).
Qed.

(** [is_list σ l xs] says no more and no less than: [l] is consistent and
    iterating it yields [xs]. *)
Lemma is_list_iff σ (l : positive) (xs : list positive) :
  is_list σ l xs ↔ consistent σ l ∧ members σ l xs.
Proof.
  split.
  - intros Hl. split; [by eapply is_list_consistent|by apply is_list_members].
  - intros [Hc Hm]. by apply members_is_list.
Qed.

(** ** Reading a ring from one of its members *)

Lemma is_ring_lookup σ e rest :
  is_ring σ (e :: rest) →
  elems σ !! e = Some (Entry (first_or rest (Some e)) (last (e :: rest))).
Proof. by intros (_ & _ & [He _]). Qed.

Lemma is_ring_successor σ e rest :
  is_ring σ (e :: rest) →
  ∃ b, b ∈ e :: rest ∧
    eval (Next (Some e)) σ = Some (Some b) ∧
    eval (Prev (Some b)) σ = Some (Some e).
Proof.
  intros Hr. pose proof (is_ring_lookup _ _ _ Hr) as He.
  unfold eval. rewrite Next_field, He. simpl.
  destruct rest as [|b rest]; simpl.
  - exists e. rewrite Prev_field, He. split_and!; [set_solver|done..].
  - exists b. destruct Hr as (_ & _ & [_ [Hb _]]). simpl in Hb.
    rewrite Prev_field, Hb. split_and!; [set_solver|done..].
Qed.

Lemma is_ring_singleton_Empty σ y :
  is_ring σ [y] → stringRingEmpty (Some y) σ = Some (true, σ).
Proof.
  intros Hy%is_ring_lookup. simpl in Hy.
  unfold stringRingEmpty, linkerFor, mbind, M_bind, mret, M_ret.
  rewrite Next_field, Hy. simpl. by rewrite bool_decide_eq_true_2.
Qed.

(** * The properties of the specification *)

Example demo_lists_10 : is_list demo_lists 10 [1; 2; 3]%positive.
Proof. by_compute. Qed.
Example demo_lists_11 : is_list demo_lists 11 [5; 6]%positive.
Proof. by_compute. Qed.
Example demo_lists_12 : is_list demo_lists 12 [].
Proof. by_compute. Qed.
Example demo_rings_123 : is_ring demo_rings [1; 2; 3]%positive.
Proof. by_compute. Qed.

(** C1. For a member [e] of a list [l], [l.Remove(e)] returns, and then
    [e.Next()] and [e.Prev()] are [nil], [l.Front()] and [l.Back()] are not
    [e], the elements of [l] are the previous ones with [e] deleted, and
    the head (tail) is the former second (next to last) element when [e] was
    the first (last) one. *)
Theorem Remove_unlinks_member σ (l : positive) (xs : list positive) e :
  is_list σ l xs → e ∈ xs →
  ∃ σ', exec (Remove (Some l) (Some e)) σ = Some σ' ∧
    eval (Next (Some e)) σ' = Some None ∧
    eval (Prev (Some e)) σ' = Some None ∧
    eval (Front (Some l)) σ' ≠ Some (Some e) ∧
    eval (Back (Some l)) σ' ≠ Some (Some e) ∧
    is_list σ' l (filter (λ x, x ≠ e) xs) ∧
    eval (traverse (length xs) (Some l)) σ' = Some (filter (λ x, x ≠ e) xs) ∧
    (∀ rest, xs = e :: rest → eval (Front (Some l)) σ' = Some (hd_error rest)) ∧
    (∀ front, xs = front ++ [e] → eval (Back (Some l)) σ' = Some (last front)).
Proof.
  intros Hl He.
  destruct (Remove_filter_spec _ _ _ _ Hl He) as (σ' & Hrun & Hl' & Hfields & Hlen).
  pose proof Hl as (_ & Hnd & _).
  assert (Hnotin : e ∉ filter (λ x, x ≠ e) xs).
  { rewrite list_elem_of_filter. naive_solver. }
  exists σ'. unfold exec, eval.
  rewrite Hrun, Next_field, Prev_field, Hfields.
  rewrite (is_list_Front _ _ _ Hl'), (is_list_Back _ _ _ Hl').
  rewrite (is_list_traverse _ _ _ _ Hl') by lia. simpl.
  split_and!; try done.
  - intros [= Hhd]. apply head_Some_elem_of in Hhd. done.
  - intros [= Hlast]. apply last_Some_elem_of in Hlast. done.
  - intros rest ->. pose proof (filter_ne_split e [] rest Hnd) as Hf.
    simpl in Hf. by rewrite Hf.
  - intros front ->. rewrite filter_ne_split, app_nil_r by done. done.
Qed.

Lemma Remove_unlinks_member_witness :
  ∃ σ', exec (Remove (Some 10%positive) (Some 2%positive)) demo_lists = Some σ' ∧
    eval (Next (Some 2%positive)) σ' = Some None ∧
    eval (traverse 3 (Some 10%positive)) σ' = Some [1; 3]%positive.
Proof.
  destruct (Remove_unlinks_member demo_lists 10 [1; 2; 3]%positive 2%positive)
    as (σ' & Hrun & Hnext & _ & _ & _ & _ & Htr & _).
  - by_compute.
  - by_compute.
  - exists σ'. split_and!; done.
Defined.

(** C9. [Reset] sets head and tail to [nil], so that [Empty] holds
    afterwards, and changes nothing else: the element store, and with it
    every member's [next] and [prev], is as before, and so is every other
    list. *)
Theorem Reset_forgets_members σ (l : positive) L :
  lists σ !! l = Some L →
  ∃ σ', exec (Reset (Some l)) σ = Some σ' ∧
    eval (Front (Some l)) σ' = Some None ∧
    eval (Back (Some l)) σ' = Some None ∧
    eval (Empty (Some l)) σ' = Some true ∧
    elems σ' = elems σ ∧
    (∀ e, eval (Next (Some e)) σ' = eval (Next (Some e)) σ ∧
          eval (Prev (Some e)) σ' = eval (Prev (Some e)) σ) ∧
    (∀ m, m ≠ l → lists σ' !! m = lists σ !! m).
Proof.
  intros Hl. unfold exec. rewrite (Reset_spec _ _ _ Hl). simpl.
  eexists; split; [reflexivity|]. destruct σ as [h ls]. simpl in *.
  split_and!; try done; try (by run).
  - intros e. unfold eval. rewrite !Next_field, !Prev_field. simpl.
    by destruct (h !! e).
  - intros m Hm. by rewrite lookup_insert_ne.
Qed.

Lemma Reset_forgets_members_witness :
  ∃ σ', exec (Reset (Some 10%positive)) demo_lists = Some σ' ∧
    eval (Empty (Some 10%positive)) σ' = Some true ∧
    elems σ' = elems demo_lists.
Proof.
  destruct (Reset_forgets_members demo_lists 10
              (ListHdr (Some 1%positive) (Some 3%positive)))
    as (σ' & Hrun & _ & _ & Hempty & Helems & _).
  - reflexivity.
  - exists σ'. split_and!; done.
Defined.

(** C10. Removing a detached element (both links [nil], neither head nor
    tail of [l]) returns and leaves the whole state, so [l] and [e], as it
    was; hence removing a member a second time changes nothing. *)
Theorem Remove_detached_is_noop :
  (∀ σ (l : positive) L e,
     lists σ !! l = Some L →
     eval (Next (Some e)) σ = Some None →
     eval (Prev (Some e)) σ = Some None →
     head L ≠ Some e → tail L ≠ Some e →
     Remove (Some l) (Some e) σ = Some (tt, σ)) ∧
  (∀ σ (l : positive) (xs : list positive) e,
     is_list σ l xs → e ∈ xs →
     ∃ σ', exec (Remove (Some l) (Some e)) σ = Some σ' ∧
       Remove (Some l) (Some e) σ' = Some (tt, σ')).
Proof.
  assert (Hnoop : ∀ σ (l : positive) L e,
    lists σ !! l = Some L →
    elems σ !! e = Some (Entry None None) →
    head L ≠ Some e → tail L ≠ Some e →
    Remove (Some l) (Some e) σ = Some (tt, σ)).
  { intros [h ls] l L e Hl He Hhd Htl. simpl in *. run.
    by rewrite insert_insert_eq, insert_id. }
  split.
  - intros σ l L e Hl Hn Hp. apply Hnoop; [done|].
    unfold eval in Hn, Hp. rewrite Next_field in Hn. rewrite Prev_field in Hp.
    destruct (elems σ !! e) as [[n p]|]; simplify_eq/=. done.
  - intros σ l xs e Hl He.
    destruct (Remove_filter_spec _ _ _ _ Hl He) as (σ' & Hrun & Hl' & Hfields & _).
    exists σ'. unfold exec. rewrite Hrun. split; [done|].
    assert (Hnotin : e ∉ filter (λ x, x ≠ e) xs).
    { rewrite list_elem_of_filter. naive_solver. }
    destruct Hl' as (Hhdr & _). eapply Hnoop; [done..| |]; simpl.
    + intros Hhd%head_Some_elem_of. done.
    + intros Hlast%last_Some_elem_of. done.
Qed.

Lemma Remove_detached_is_noop_witness :
  Remove (Some 10%positive) (Some 4%positive) demo_lists = Some (tt, demo_lists) ∧
  ∃ σ', exec (Remove (Some 10%positive) (Some 2%positive)) demo_lists = Some σ' ∧
    Remove (Some 10%positive) (Some 2%positive) σ' = Some (tt, σ').
Proof.
  destruct Remove_detached_is_noop as [Hdetached Htwice]. split.
  - apply (Hdetached demo_lists 10%positive (ListHdr (Some 1%positive) (Some 3%positive)));
      by vm_compute.
  - apply (Htwice demo_lists 10%positive [1; 2; 3]%positive 2%positive);
      by_compute.
Defined.

(** C4. For an element [e] that is no member of [l], [PushFront(e)] makes
    [e] the head, with [nil] before it and the former head after it, whose
    [prev] becomes [e]; [PushBack(e)] makes [e] the tail, with [nil] after it
    and the former tail before it, whose [next] becomes [e]; the other end
    becomes [e] too when [l] was empty and is kept otherwise.  Pushing
    [a], [b], [c] to the back of an empty list gives [Front() == a],
    [Back() == c] and [Len() == 3]. *)
Theorem Push_at_ends :
  (∀ σ (l : positive) (xs : list positive) e,
     is_list σ l xs → allocated σ e → e ∉ xs →
     (∃ σ', exec (PushFront (Some l) (Some e)) σ = Some σ' ∧
        is_list σ' l (e :: xs) ∧
        eval (Front (Some l)) σ' = Some (Some e) ∧
        eval (Prev (Some e)) σ' = Some None ∧
        eval (Next (Some e)) σ' = eval (Front (Some l)) σ ∧
        (∀ h, eval (Front (Some l)) σ = Some (Some h) →
           eval (Prev (Some h)) σ' = Some (Some e)) ∧
        (xs = [] → eval (Back (Some l)) σ' = Some (Some e)) ∧
        (xs ≠ [] → eval (Back (Some l)) σ' = eval (Back (Some l)) σ)) ∧
     (∃ σ', exec (PushBack (Some l) (Some e)) σ = Some σ' ∧
        is_list σ' l (xs ++ [e]) ∧
        eval (Back (Some l)) σ' = Some (Some e) ∧
        eval (Next (Some e)) σ' = Some None ∧
        eval (Prev (Some e)) σ' = eval (Back (Some l)) σ ∧
        (∀ t, eval (Back (Some l)) σ = Some (Some t) →
           eval (Next (Some t)) σ' = Some (Some e)) ∧
        (xs = [] → eval (Front (Some l)) σ' = Some (Some e)) ∧
        (xs ≠ [] → eval (Front (Some l)) σ' = eval (Front (Some l)) σ))) ∧
  (∀ σ (l : positive) a b c,
     is_list σ l [] → allocated σ a → allocated σ b → allocated σ c →
     NoDup [a; b; c] →
     ∃ σ', exec (PushBack (Some l) (Some a);; PushBack (Some l) (Some b);;
                 PushBack (Some l) (Some c)) σ = Some σ' ∧
       eval (Front (Some l)) σ' = Some (Some a) ∧
       eval (Back (Some l)) σ' = Some (Some c) ∧
       eval (Len 3 (Some l)) σ' = Some 3%Z).
Proof.
  split.
  - intros σ l xs e Hl Ha Hfresh. unfold exec, eval.
    rewrite (is_list_Front _ _ _ Hl), (is_list_Back _ _ _ Hl). simpl. split.
    + destruct (PushFront_spec _ _ _ _ Hl Ha Hfresh) as (σ' & Hrun & Hl').
      exists σ'. rewrite Hrun, (is_list_Front _ _ _ Hl'), (is_list_Back _ _ _ Hl').
      rewrite Next_field, Prev_field, (is_list_lookup σ' l [] e xs) by done.
      simpl. split_and!; try done.
      * intros h [= Hh]. apply head_Some in Hh as [rest ->].
        rewrite Prev_field, (is_list_lookup σ' l [e] h rest) by done. done.
      * by intros ->.
      * intros Hne. by destruct xs.
    + destruct (PushBack_spec _ _ _ _ Hl Ha Hfresh) as (σ' & Hrun & Hl').
      exists σ'. rewrite Hrun, (is_list_Front _ _ _ Hl'), (is_list_Back _ _ _ Hl').
      rewrite Next_field, Prev_field, (is_list_lookup σ' l xs e []) by done.
      rewrite last_snoc. simpl. split_and!; try done.
      * intros t [= Ht]. apply last_Some in Ht as [front ->].
        rewrite <-app_assoc in Hl'.
        rewrite Next_field, (is_list_lookup σ' l front t [e]) by done. done.
      * by intros ->.
      * intros Hne. by destruct xs.
  - intros σ l a b c Hl Ha Hb Hc Hnd. split_NoDup.
    destruct (PushBack_spec _ _ _ _ Hl Ha) as (σ1 & Hrun1 & Hl1); [set_solver|].
    pose proof (allocated_keeps_dom _ _ _ _ b (keeps_dom_PushBack _ _) Hrun1 Hb) as Hb1.
    pose proof (allocated_keeps_dom _ _ _ _ c (keeps_dom_PushBack _ _) Hrun1 Hc) as Hc1.
    destruct (PushBack_spec _ _ _ _ Hl1 Hb1) as (σ2 & Hrun2 & Hl2); [set_solver|].
    pose proof (allocated_keeps_dom _ _ _ _ c (keeps_dom_PushBack _ _) Hrun2 Hc1) as Hc2.
    destruct (PushBack_spec _ _ _ _ Hl2 Hc2) as (σ3 & Hrun3 & Hl3); [set_solver|].
    exists σ3. unfold exec, eval, mbind, M_bind.
    rewrite Hrun1, Hrun2, Hrun3.
    rewrite (is_list_Front _ _ _ Hl3), (is_list_Back _ _ _ Hl3).
    rewrite (is_list_Len _ _ _ _ Hl3); simpl; [done|lia|lia].
Qed.

Lemma Push_at_ends_witness :
  (∃ σ', exec (PushFront (Some 10%positive) (Some 4%positive)) demo_lists = Some σ' ∧
     is_list σ' 10 [4; 1; 2; 3]%positive) ∧
  (∃ σ', exec (PushBack (Some 12%positive) (Some 4%positive);;
               PushBack (Some 12%positive) (Some 7%positive);;
               PushBack (Some 12%positive) (Some 8%positive)) demo_lists = Some σ' ∧
     eval (Front (Some 12%positive)) σ' = Some (Some 4%positive) ∧
     eval (Back (Some 12%positive)) σ' = Some (Some 8%positive) ∧
     eval (Len 3 (Some 12%positive)) σ' = Some 3%Z).
Proof.
  destruct Push_at_ends as [Hpush Hscenario]. split.
  - destruct (Hpush demo_lists 10%positive [1; 2; 3]%positive 4%positive)
      as [(σ' & Hrun & Hl & _) _]; [by_compute..|].
    by exists σ'.
  - apply (Hscenario demo_lists 12%positive 4%positive 7%positive 8%positive);
      by_compute.
Defined.

(** C5. For a member [b] of [l] and an element [e] that is no member,
    [InsertAfter(b, e)] returns with [b.Next() == e] and [e.Prev() == b],
    [e] placed right after [b], and [l.Back() == e] if [b] was the tail;
    [InsertBefore(b, e)] returns with [b.Prev() == e] and [e.Next() == b],
    [e] placed right before [b], and [l.Front() == e] if [b] was the head. *)
Theorem Insert_adjacent σ (l : positive) (xs : list positive) b e :
  is_list σ l xs → b ∈ xs → allocated σ e → e ∉ xs →
  (∃ σ', exec (InsertAfter (Some l) (Some b) (Some e)) σ = Some σ' ∧
     eval (Next (Some b)) σ' = Some (Some e) ∧
     eval (Prev (Some e)) σ' = Some (Some b) ∧
     eval (Next (Some e)) σ' = eval (Next (Some b)) σ ∧
     (eval (Back (Some l)) σ = Some (Some b) →
      eval (Back (Some l)) σ' = Some (Some e)) ∧
     ∃ l1 l2, xs = l1 ++ b :: l2 ∧ is_list σ' l (l1 ++ b :: e :: l2)) ∧
  (∃ σ', exec (InsertBefore (Some l) (Some b) (Some e)) σ = Some σ' ∧
     eval (Prev (Some b)) σ' = Some (Some e) ∧
     eval (Next (Some e)) σ' = Some (Some b) ∧
     eval (Prev (Some e)) σ' = eval (Prev (Some b)) σ ∧
     (eval (Front (Some l)) σ = Some (Some b) →
      eval (Front (Some l)) σ' = Some (Some e)) ∧
     ∃ l1 l2, xs = l1 ++ b :: l2 ∧ is_list σ' l (l1 ++ e :: b :: l2)).
Proof.
  intros Hl (l1 & l2 & ->)%list_elem_of_split Ha Hfresh.
  pose proof Hl as (_ & Hnd & _).
  unfold exec, eval. rewrite (is_list_Front _ _ _ Hl), (is_list_Back _ _ _ Hl).
  rewrite Next_field, Prev_field, (is_list_lookup _ _ _ _ _ Hl). simpl. split.
  - destruct (InsertAfter_spec _ _ _ _ _ _ Hl Ha Hfresh) as (σ' & Hrun & Hl').
    exists σ'. rewrite Hrun, (is_list_Back _ _ _ Hl').
    rewrite !Next_field, Prev_field, (is_list_lookup _ _ _ _ _ Hl').
    replace (l1 ++ b :: e :: l2) with ((l1 ++ [b]) ++ e :: l2) in Hl'
      by (by rewrite <-app_assoc).
    rewrite (is_list_lookup _ _ _ _ _ Hl'), last_snoc. simpl.
    split_and!; try done.
    + intros [= Hlast]. rewrite last_app_cons in Hlast.
      destruct l2 as [|c l2].
      * by rewrite last_app_cons.
      * rewrite last_cons_cons in Hlast. apply last_Some_elem_of in Hlast.
        split_NoDup. set_solver.
    + exists l1, l2. by rewrite <-app_assoc in Hl'.
  - destruct (InsertBefore_spec _ _ _ _ _ _ Hl Ha Hfresh) as (σ' & Hrun & Hl').
    exists σ'. rewrite Hrun, (is_list_Front _ _ _ Hl').
    rewrite Next_field, !Prev_field, (is_list_lookup _ _ _ _ _ Hl').
    replace (l1 ++ e :: b :: l2) with ((l1 ++ [e]) ++ b :: l2) in Hl'
      by (by rewrite <-app_assoc).
    rewrite (is_list_lookup _ _ _ _ _ Hl'), last_snoc. simpl.
    split_and!; try done.
    + intros [= Hhd]. destruct l1 as [|c l1]; [done|].
      simpl in Hhd. injection Hhd as ->. split_NoDup. set_solver.
    + exists l1, l2. by rewrite <-app_assoc in Hl'.
Qed.

Lemma Insert_adjacent_witness :
  (∃ σ', exec (InsertAfter (Some 10%positive) (Some 3%positive) (Some 4%positive))
           demo_lists = Some σ' ∧
     eval (Next (Some 3%positive)) σ' = Some (Some 4%positive) ∧
     eval (Prev (Some 4%positive)) σ' = Some (Some 3%positive) ∧
     eval (Back (Some 10%positive)) σ' = Some (Some 4%positive)) ∧
  (∃ σ', exec (InsertBefore (Some 10%positive) (Some 1%positive) (Some 4%positive))
           demo_lists = Some σ' ∧
     eval (Prev (Some 1%positive)) σ' = Some (Some 4%positive) ∧
     eval (Next (Some 4%positive)) σ' = Some (Some 1%positive) ∧
     eval (Front (Some 10%positive)) σ' = Some (Some 4%positive)).
Proof.
  split.
  - destruct (Insert_adjacent demo_lists 10%positive [1; 2; 3]%positive
                3%positive 4%positive)
      as [(σ' & Hrun & Hn & Hp & _ & Hback & _) _]; [by_compute..|].
    exists σ'. split_and!; [done..|]. by apply Hback.
  - destruct (Insert_adjacent demo_lists 10%positive [1; 2; 3]%positive
                1%positive 4%positive)
      as [_ (σ' & Hrun & Hp & Hn & _ & Hfront & _)]; [by_compute..|].
    exists σ'. split_and!; [done..|]. by apply Hfront.
Defined.

(** Splicing a non-empty list onto itself violates the precondition that the
    two lists share no element; what was the list is then lost. *)
Example PushFrontList_onto_itself :
  eval (PushFrontList (Some 10%positive) (Some 10%positive);;
        traverse 3 (Some 10%positive)) demo_lists = Some [].
Proof. reflexivity. Qed.

(** C3, as stated, does not hold: it has the two orders exchanged.  After
    [l.PushBackList(m)] the destination does not in general yield [m]'s
    former sequence followed by [l]'s, and after [l.PushFrontList(m)] it
    does not in general yield [l]'s former sequence followed by [m]'s. *)
Lemma PushList_order_as_stated_fails :
  (eval (PushBackList (Some 10%positive) (Some 11%positive);;
         traverse 5 (Some 10%positive)) demo_lists
     = Some [1; 2; 3; 5; 6]%positive ∧
   [1; 2; 3; 5; 6]%positive ≠ [5; 6]%positive ++ [1; 2; 3]%positive) ∧
  (eval (PushFrontList (Some 10%positive) (Some 11%positive);;
         traverse 5 (Some 10%positive)) demo_lists
     = Some [5; 6; 1; 2; 3]%positive ∧
   [5; 6; 1; 2; 3]%positive ≠ [1; 2; 3]%positive ++ [5; 6]%positive) ∧
  ¬ (∀ σ (l m : positive) (xs ms : list positive) σ',
       is_list σ l xs → is_list σ m ms → (∀ x, x ∈ xs → x ∉ ms) →
       exec (PushBackList (Some l) (Some m)) σ = Some σ' →
       members σ' l (ms ++ xs)) ∧
  ¬ (∀ σ (l m : positive) (xs ms : list positive) σ',
       is_list σ l xs → is_list σ m ms → (∀ x, x ∈ xs → x ∉ ms) →
       exec (PushFrontList (Some l) (Some m)) σ = Some σ' →
       members σ' l (xs ++ ms)).
Proof.
  assert (Hdisj : ∀ x : positive, x ∈ [1; 2; 3]%positive → x ∉ [5; 6]%positive).
  { apply Forall_forall. by_compute. }
  split; [done|]. split; [done|].
  split; intros Hclaim.
  - destruct (PushBackList_spec _ _ _ _ _ demo_lists_10 demo_lists_11 Hdisj)
      as (σ' & Hrun & Hl' & _).
    assert (Hm : members σ' 10 ([5; 6]%positive ++ [1; 2; 3]%positive)).
    { eapply Hclaim; [exact demo_lists_10|exact demo_lists_11|exact Hdisj|].
      unfold exec. by rewrite Hrun. }
    apply members_is_list in Hm; [|by eapply is_list_consistent].
    destruct Hl' as (Hh1 & _), Hm as (Hh2 & _). rewrite Hh1 in Hh2. done.
  - destruct (PushFrontList_spec _ _ _ _ _ demo_lists_10 demo_lists_11 Hdisj)
      as (σ' & Hrun & Hl' & _).
    assert (Hm : members σ' 10 ([1; 2; 3]%positive ++ [5; 6]%positive)).
    { eapply Hclaim; [exact demo_lists_10|exact demo_lists_11|exact Hdisj|].
      unfold exec. by rewrite Hrun. }
    apply members_is_list in Hm; [|by eapply is_list_consistent].
    destruct Hl' as (Hh1 & _), Hm as (Hh2 & _). rewrite Hh1 in Hh2. done.
Qed.

(** C3, amended.  For lists [l] and [m] without a common element,
    [l.PushFrontList(m)] and [l.PushBackList(m)] return with [m] empty;
    iterating [l] then yields [m]'s former sequence immediately followed by
    [l]'s prior sequence for [PushFrontList], and [l]'s prior sequence
    immediately followed by [m]'s former sequence for [PushBackList].  If [l]
    was empty it takes over [m]'s head and tail; if [m] was empty [l] keeps
    its own. *)
Theorem PushList_concatenates σ (l m : positive) (xs ms : list positive) :
  is_list σ l xs → is_list σ m ms → (∀ x, x ∈ xs → x ∉ ms) →
  (∃ σ', exec (PushFrontList (Some l) (Some m)) σ = Some σ' ∧
     eval (Empty (Some m)) σ' = Some true ∧
     eval (traverse (length (ms ++ xs)) (Some l)) σ' = Some (ms ++ xs) ∧
     is_list σ' l (ms ++ xs) ∧ is_list σ' m [] ∧
     (xs = [] → eval (Front (Some l)) σ' = eval (Front (Some m)) σ ∧
                eval (Back (Some l)) σ' = eval (Back (Some m)) σ) ∧
     (ms = [] → eval (Front (Some l)) σ' = eval (Front (Some l)) σ ∧
                eval (Back (Some l)) σ' = eval (Back (Some l)) σ)) ∧
  (∃ σ', exec (PushBackList (Some l) (Some m)) σ = Some σ' ∧
     eval (Empty (Some m)) σ' = Some true ∧
     eval (traverse (length (xs ++ ms)) (Some l)) σ' = Some (xs ++ ms) ∧
     is_list σ' l (xs ++ ms) ∧ is_list σ' m [] ∧
     (xs = [] → eval (Front (Some l)) σ' = eval (Front (Some m)) σ ∧
                eval (Back (Some l)) σ' = eval (Back (Some m)) σ) ∧
     (ms = [] → eval (Front (Some l)) σ' = eval (Front (Some l)) σ ∧
                eval (Back (Some l)) σ' = eval (Back (Some l)) σ)).
Proof.
  intros Hl Hm Hdisj. unfold exec, eval.
  rewrite (is_list_Front _ _ _ Hl), (is_list_Back _ _ _ Hl).
  rewrite (is_list_Front _ _ _ Hm), (is_list_Back _ _ _ Hm). simpl. split.
  - destruct (PushFrontList_spec _ _ _ _ _ Hl Hm Hdisj) as (σ' & Hrun & Hl' & Hm').
    exists σ'. rewrite Hrun, (is_list_Empty _ _ _ Hm').
    rewrite (is_list_traverse _ _ _ _ Hl') by done.
    rewrite (is_list_Front _ _ _ Hl'), (is_list_Back _ _ _ Hl'). simpl.
    split_and!; try done.
    + intros ->. by rewrite app_nil_r.
    + by intros ->.
  - destruct (PushBackList_spec _ _ _ _ _ Hl Hm Hdisj) as (σ' & Hrun & Hl' & Hm').
    exists σ'. rewrite Hrun, (is_list_Empty _ _ _ Hm').
    rewrite (is_list_traverse _ _ _ _ Hl') by done.
    rewrite (is_list_Front _ _ _ Hl'), (is_list_Back _ _ _ Hl'). simpl.
    split_and!; try done.
    + by intros ->.
    + intros ->. by rewrite app_nil_r.
Qed.

Lemma PushList_concatenates_witness :
  (∃ σ', exec (PushFrontList (Some 10%positive) (Some 11%positive)) demo_lists = Some σ' ∧
     eval (Empty (Some 11%positive)) σ' = Some true ∧
     eval (traverse 5 (Some 10%positive)) σ' = Some [5; 6; 1; 2; 3]%positive) ∧
  (∃ σ', exec (PushBackList (Some 10%positive) (Some 11%positive)) demo_lists = Some σ' ∧
     eval (Empty (Some 11%positive)) σ' = Some true ∧
     eval (traverse 5 (Some 10%positive)) σ' = Some [1; 2; 3; 5; 6]%positive).
Proof.
  destruct (PushList_concatenates demo_lists 10%positive 11%positive
              [1; 2; 3]%positive [5; 6]%positive)
    as [(σ1 & Hrun1 & He1 & Ht1 & _) (σ2 & Hrun2 & He2 & Ht2 & _)].
  - by_compute.
  - by_compute.
  - apply Forall_forall. by_compute.
  - split; [exists σ1|exists σ2]; split_and!; done.
Defined.

(** C2. Each list operation, called on a consistent list under its
    precondition (an inserted element is live and no member; the reference
    element of an insertion and a removed element are members; a spliced
    list is consistent and shares no element), returns and leaves the list
    consistent again, and a spliced list too. *)
Theorem operations_keep_consistent σ (l : positive) (xs : list positive) :
  consistent σ l → members σ l xs →
  (∃ σ', exec (Reset (Some l)) σ = Some σ' ∧ consistent σ' l) ∧
  (∀ e, allocated σ e → e ∉ xs →
     (∃ σ', exec (PushFront (Some l) (Some e)) σ = Some σ' ∧ consistent σ' l) ∧
     (∃ σ', exec (PushBack (Some l) (Some e)) σ = Some σ' ∧ consistent σ' l) ∧
     (∀ b, b ∈ xs →
        (∃ σ', exec (InsertAfter (Some l) (Some b) (Some e)) σ = Some σ' ∧
           consistent σ' l) ∧
        (∃ σ', exec (InsertBefore (Some l) (Some b) (Some e)) σ = Some σ' ∧
           consistent σ' l))) ∧
  (∀ e, e ∈ xs →
     ∃ σ', exec (Remove (Some l) (Some e)) σ = Some σ' ∧ consistent σ' l) ∧
  (∀ (m : positive) (ms : list positive),
     consistent σ m → members σ m ms → (∀ x, x ∈ xs → x ∉ ms) →
     (∃ σ', exec (PushFrontList (Some l) (Some m)) σ = Some σ' ∧
        consistent σ' l ∧ consistent σ' m) ∧
     (∃ σ', exec (PushBackList (Some l) (Some m)) σ = Some σ' ∧
        consistent σ' l ∧ consistent σ' m)).
Proof.
  intros Hc Hmem. pose proof (members_is_list _ _ _ Hc Hmem) as Hl.
  unfold exec. split_and!.
  - destruct Hl as (Hhdr & _). rewrite (Reset_spec _ _ _ Hhdr). simpl.
    eexists; split; [reflexivity|]. apply (is_list_consistent _ _ []).
    unfold is_list; simpl. rewrite lookup_insert_eq. split_and!; try done.
    constructor.
  - intros e Ha Hfresh. split_and!.
    + destruct (PushFront_spec _ _ _ _ Hl Ha Hfresh) as (σ' & -> & Hl').
      exists σ'. split; [done|]. by eapply is_list_consistent.
    + destruct (PushBack_spec _ _ _ _ Hl Ha Hfresh) as (σ' & -> & Hl').
      exists σ'. split; [done|]. by eapply is_list_consistent.
    + intros b (l1 & l2 & ->)%list_elem_of_split. split.
      * destruct (InsertAfter_spec _ _ _ _ _ _ Hl Ha Hfresh) as (σ' & -> & Hl').
        exists σ'. split; [done|]. by eapply is_list_consistent.
      * destruct (InsertBefore_spec _ _ _ _ _ _ Hl Ha Hfresh) as (σ' & -> & Hl').
        exists σ'. split; [done|]. by eapply is_list_consistent.
  - intros e He.
    destruct (Remove_filter_spec _ _ _ _ Hl He) as (σ' & -> & Hl' & _).
    exists σ'. split; [done|]. by eapply is_list_consistent.
  - intros m ms Hcm Hmm Hdisj.
    pose proof (members_is_list _ _ _ Hcm Hmm) as Hm. split.
    + destruct (PushFrontList_spec _ _ _ _ _ Hl Hm Hdisj) as (σ' & -> & Hl' & Hm').
      exists σ'. split_and!; [done|by eapply is_list_consistent..].
    + destruct (PushBackList_spec _ _ _ _ _ Hl Hm Hdisj) as (σ' & -> & Hl' & Hm').
      exists σ'. split_and!; [done|by eapply is_list_consistent..].
Qed.

Lemma operations_keep_consistent_witness :
  (∃ σ', exec (Remove (Some 10%positive) (Some 2%positive)) demo_lists = Some σ' ∧
     consistent σ' 10) ∧
  (∃ σ', exec (PushBackList (Some 10%positive) (Some 11%positive)) demo_lists = Some σ' ∧
     consistent σ' 10 ∧ consistent σ' 11).
Proof.
  destruct (operations_keep_consistent demo_lists 10%positive [1; 2; 3]%positive)
    as (_ & _ & Hremove & Hsplice).
  - apply (is_list_consistent _ _ [1; 2; 3]%positive). by_compute.
  - by exists 3.
  - split.
    + apply Hremove. by_compute.
    + apply (Hsplice 11%positive [5; 6]%positive).
      * apply (is_list_consistent _ _ [5; 6]%positive). by_compute.
      * by exists 2.
      * apply Forall_forall. by_compute.
Defined.

(** C6. Replaying any sequence of [PushFront], [PushBack] and [Remove] on
    an initially empty list, each insert of a live element that is no
    member and each remove of a member, returns; afterwards [Len()] is the
    number of inserts minus the number of removes, and the traversal from
    the front along [Next] is the reverse of the traversal from the back
    along [Prev].  ([Len] counts in a 64-bit [int], which cannot overflow
    on a store of fewer than [2^63] elements.) *)
Theorem replay_Len_and_traversals σ (l : positive) (ops : list op) :
  (Z.of_nat (size (elems σ)) < 2 ^ 63)%Z →
  is_list σ l [] →
  (∀ o, o ∈ ops → allocated σ (op_elem o)) →
  admissible [] ops →
  ∃ σ' fw bw,
    exec (replay (Some l) ops) σ = Some σ' ∧
    eval (Len (length ops) (Some l)) σ' =
      Some (Z.of_nat (inserts ops) - Z.of_nat (removes ops))%Z ∧
    eval (traverse (length ops) (Some l)) σ' = Some fw ∧
    eval (traverse_back (length ops) (Some l)) σ' = Some bw ∧
    fw = reverse bw.
Proof.
  intros Hbound Hl Halloc Hadm.
  destruct (replay_spec _ _ _ _ Hl Halloc Hadm) as (σ' & Hrun & Hl' & Hlen).
  simpl in Hlen. pose proof (inserts_le_length ops) as Hle.
  pose proof (is_list_length_size _ _ _ Hl') as Hsize.
  destruct (keeps_dom_replay _ _ _ _ _ Hrun) as [Hdom _].
  rewrite <-size_dom, Hdom, size_dom in Hsize.
  set (ys := foldl apply_op [] ops) in *.
  exists σ', ys, (reverse ys). unfold exec, eval. rewrite Hrun.
  rewrite (is_list_Len _ _ _ _ Hl'), (is_list_traverse _ _ _ _ Hl'),
    (is_list_traverse_back _ _ _ _ Hl') by lia. simpl.
  split_and!; try done.
  - f_equal. lia.
  - by rewrite reverse_involutive.
Qed.

Lemma replay_Len_and_traversals_witness :
  ∃ σ' fw bw,
    exec (replay (Some 12%positive)
            [OpPushBack 4; OpPushFront 7; OpPushBack 8; OpRemove 4]%positive)
      demo_lists = Some σ' ∧
    eval (Len 4 (Some 12%positive)) σ' = Some 2%Z ∧
    eval (traverse 4 (Some 12%positive)) σ' = Some fw ∧
    eval (traverse_back 4 (Some 12%positive)) σ' = Some bw ∧
    fw = reverse bw.
Proof.
  apply (replay_Len_and_traversals demo_lists 12%positive
           [OpPushBack 4; OpPushFront 7; OpPushBack 8; OpRemove 4]%positive).
  - by vm_compute.
  - by_compute.
  - apply Forall_forall. by_compute.
  - simpl. split_and!; try done; by_compute.
Defined.

(** C7. In a ring of size [n], [n] applications of [Next()] lead from any
    member [e] back to [e], passing every member exactly once on the way,
    and [Prev()] undoes [Next()].  [RingInit(e)] makes [e] a ring of its
    own.  [RingAdd(old, new)], for a member [old] and an element [new]
    outside the ring, returns with [new] placed right after [old]:
    [old.Next() == new], [new.Prev() == old], and [new.Next()] is the former
    successor of [old], which is [old] itself in a singleton ring. *)
Theorem ring_cycle_and_RingAdd :
  (∀ σ (xs : list positive) e,
     is_ring σ xs → e ∈ xs →
     eval (Next_n (length xs) (Some e)) σ = Some (Some e) ∧
     (∃ rest, e :: rest ≡ₚ xs ∧ NoDup (e :: rest) ∧
        ∀ k, k < length xs →
          eval (Next_n k (Some e)) σ = Some ((e :: rest) !! k)) ∧
     (∃ b, b ∈ xs ∧ eval (Next (Some e)) σ = Some (Some b) ∧
        eval (Prev (Some b)) σ = Some (Some e))) ∧
  (∀ σ e, allocated σ e →
     ∃ σ', exec (stringRingInit (Some e)) σ = Some σ' ∧ is_ring σ' [e]) ∧
  (∀ σ (xs : list positive) old new,
     is_ring σ xs → old ∈ xs → allocated σ new → new ∉ xs →
     ∃ σ' succ,
       eval (Next (Some old)) σ = Some (Some succ) ∧
       (xs = [old] → succ = old) ∧
       exec (stringRingAdd (Some old) (Some new)) σ = Some σ' ∧
       eval (Next (Some old)) σ' = Some (Some new) ∧
       eval (Prev (Some new)) σ' = Some (Some old) ∧
       eval (Next (Some new)) σ' = Some (Some succ) ∧
       eval (Prev (Some succ)) σ' = Some (Some new) ∧
       ∃ l1 l2, xs = l1 ++ old :: l2 ∧ is_ring σ' (l1 ++ old :: new :: l2)).
Proof.
  split_and!.
  - intros σ xs e Hr (l1 & l2 & ->)%list_elem_of_split.
    apply is_ring_from in Hr.
    assert (Hperm : e :: l2 ++ l1 ≡ₚ l1 ++ e :: l2).
    { by rewrite (comm app l1), <-app_comm_cons. }
    rewrite <-(Permutation_length Hperm). unfold eval. split_and!.
    + by rewrite (is_ring_Next_n_full _ _ _ Hr).
    + exists (l2 ++ l1). pose proof Hr as (_ & Hnd & _). split_and!; [done..|].
      intros k Hk. by rewrite (is_ring_Next_n _ _ (l2 ++ l1)).
    + destruct (is_ring_successor _ _ _ Hr) as (b & Hb & Hn & Hp).
      exists b. split_and!; [|done..]. by rewrite <-Hperm.
  - intros σ e Ha. destruct (stringRingInit_spec _ _ Ha) as (σ' & Hrun & Hr).
    exists σ'. unfold exec. by rewrite Hrun.
  - intros σ xs old new Hr (l1 & l2 & ->)%list_elem_of_split Ha Hfresh.
    apply is_ring_from in Hr.
    assert (Hfresh' : new ∉ old :: l2 ++ l1) by set_solver.
    pose proof (is_ring_lookup _ _ _ Hr) as Hold.
    destruct (stringRingAdd_spec _ _ _ _ Hr Ha Hfresh') as (σ' & Hrun & Hr').
    pose proof (is_ring_lookup _ _ _ Hr') as Hold'.
    pose proof Hr' as (_ & _ & [_ [Hnew Hrest]]). simpl in Hnew.
    assert (∃ succ, first_or (l2 ++ l1) (Some old) = Some succ ∧
              prev <$> elems σ' !! succ = Some (Some new)) as (succ & Hsucc & Hps).
    { destruct (l2 ++ l1) as [|c rest] eqn:E; simpl in *.
      - exists old. by rewrite Hold'.
      - exists c. destruct Hrest as [-> _]. done. }
    exists σ', succ. unfold eval, exec.
    rewrite Hrun, !Next_field, !Prev_field, Hold, Hold', Hnew. simpl.
    destruct (elems σ' !! succ) as [[? ?]|]; simplify_eq/=.
    rewrite Hsucc. split_and!; try done.
    + intros Hxs. destruct l1 as [|? [|? ?]], l2; simplify_eq/=. done.
    + exists l1, l2. split; [done|].
      by apply (is_ring_rotate σ' (old :: new :: l2) l1) in Hr'.
Qed.

Lemma ring_cycle_and_RingAdd_witness :
  eval (Next_n 3 (Some 2%positive)) demo_rings = Some (Some 2%positive) ∧
  (∃ σ', exec (stringRingAdd (Some 4%positive) (Some 7%positive)) demo_rings = Some σ' ∧
     eval (Next (Some 4%positive)) σ' = Some (Some 7%positive) ∧
     eval (Prev (Some 7%positive)) σ' = Some (Some 4%positive) ∧
     eval (Next (Some 7%positive)) σ' = Some (Some 4%positive) ∧
     is_ring σ' [4; 7]%positive).
Proof.
  destruct ring_cycle_and_RingAdd as (Hcycle & _ & Hadd). split.
  - apply (Hcycle demo_rings [1; 2; 3]%positive 2%positive); by_compute.
  - destruct (Hadd demo_rings [4]%positive 4%positive 7%positive)
      as (σ' & succ & _ & Hsucc & Hrun & Hn & Hp & Hnn & _ & l1 & l2 & Hxs & Hr);
      [by_compute..|].
    rewrite (Hsucc eq_refl) in Hnn.
    destruct l1 as [|? [|? ?]]; simplify_eq/=.
    exists σ'. by split_and!.
Defined.

(** C8. For a member [e] of a ring, [RingRemove(e)] returns; afterwards the
    former predecessor and successor of [e] are linked to each other, [e] is
    a singleton ring with [e.Next() == e.Prev() == e], so that
    [RingEmpty(e)] holds, and the other members, if any, still form a ring.
    On a singleton ring this leaves [e] a singleton; on a ring of size two
    it leaves the other element a singleton as well. *)
Theorem RingRemove_excises σ (xs : list positive) e :
  is_ring σ xs → e ∈ xs →
  ∃ σ' nx pv,
    eval (Next (Some e)) σ = Some (Some nx) ∧
    eval (Prev (Some e)) σ = Some (Some pv) ∧
    exec (stringRingRemove (Some e)) σ = Some σ' ∧
    eval (Next (Some pv)) σ' = Some (Some nx) ∧
    eval (Prev (Some nx)) σ' = Some (Some pv) ∧
    eval (Next (Some e)) σ' = Some (Some e) ∧
    eval (Prev (Some e)) σ' = Some (Some e) ∧
    eval (stringRingEmpty (Some e)) σ' = Some true ∧
    is_ring σ' [e] ∧
    (∃ l1 l2, xs = l1 ++ e :: l2 ∧ (l1 ++ l2 ≠ [] → is_ring σ' (l1 ++ l2))) ∧
    (∀ y, xs = [e; y] ∨ xs = [y; e] →
       is_ring σ' [y] ∧ eval (stringRingEmpty (Some y)) σ' = Some true).
Proof.
  intros Hr (l1 & l2 & ->)%list_elem_of_split.
  pose proof Hr as Hr0. apply is_ring_from in Hr.
  pose proof (is_ring_lookup _ _ _ Hr) as He.
  destruct (stringRingRemove_spec _ _ _ Hr) as (σ' & Hrun & Hsingle & Hrest & Hlink).
  pose proof (is_ring_lookup _ _ _ Hsingle) as He'. simpl in He'.
  assert (∃ nx pv, first_or (l2 ++ l1) (Some e) = Some nx ∧
            last (e :: l2 ++ l1) = Some pv) as (nx & pv & Hnx & Hpv).
  { destruct (last (e :: l2 ++ l1)) as [pv|] eqn:E.
    - destruct (l2 ++ l1); by eauto.
    - by apply last_None in E. }
  rewrite Hnx, Hpv in He. destruct (Hlink _ _ He) as [Hn Hp].
  assert (Hother : l1 ++ l2 ≠ [] → is_ring σ' (l1 ++ l2)).
  { intros Hne. apply (is_ring_rotate σ' l2 l1), Hrest.
    by destruct l1, l2. }
  exists σ', nx, pv. unfold eval, exec in *.
  rewrite Hrun, (is_ring_singleton_Empty _ _ Hsingle).
  rewrite !Next_field, !Prev_field, He, He'. simpl.
  destruct (elems σ' !! pv) as [[? ?]|], (elems σ' !! nx) as [[? ?]|];
    simplify_eq/=.
  split_and!; try done.
  - by exists l1, l2.
  - intros y Hxs. assert (Hy : is_ring σ' [y]).
    { destruct Hxs as [Hxs|Hxs].
      - destruct l1 as [|? [|? [|? ?]]]; simplify_eq/=; by apply Hother.
      - destruct l1 as [|? [|? [|? ?]]]; simplify_eq/=; by apply Hother. }
    by rewrite (is_ring_singleton_Empty _ _ Hy).
Qed.

Lemma RingRemove_excises_witness :
  (∃ σ', exec (stringRingRemove (Some 2%positive)) demo_rings = Some σ' ∧
     eval (Next (Some 1%positive)) σ' = Some (Some 3%positive) ∧
     eval (Prev (Some 3%positive)) σ' = Some (Some 1%positive) ∧
     eval (stringRingEmpty (Some 2%positive)) σ' = Some true) ∧
  (∃ σ', exec (stringRingRemove (Some 5%positive)) demo_rings = Some σ' ∧
     eval (stringRingEmpty (Some 5%positive)) σ' = Some true ∧
     eval (stringRingEmpty (Some 6%positive)) σ' = Some true) ∧
  (∃ σ', exec (stringRingRemove (Some 4%positive)) demo_rings = Some σ' ∧
     eval (stringRingEmpty (Some 4%positive)) σ' = Some true).
Proof.
  split_and!.
  - destruct (RingRemove_excises demo_rings [1; 2; 3]%positive 2%positive)
      as (σ' & nx & pv & Hnx & Hpv & Hrun & Hn & Hp & _ & _ & Hempty & _);
      [by_compute..|].
    vm_compute in Hnx, Hpv. simplify_eq. by exists σ'.
  - destruct (RingRemove_excises demo_rings [5; 6]%positive 5%positive)
      as (σ' & _ & _ & _ & _ & Hrun & _ & _ & _ & _ & Hempty & _ & _ & Hpair);
      [by_compute..|].
    destruct (Hpair 6%positive) as [_ Hother]; [by left|].
    by exists σ'.
  - destruct (RingRemove_excises demo_rings [4]%positive 4%positive)
      as (σ' & _ & _ & _ & _ & Hrun & _ & _ & _ & _ & Hempty & _);
      [by_compute..|].
    by exists σ'.
Defined.

(** * Further properties of the list and ring code *)

Ltac map_eq_tac :=
  apply map_eq; intros ?;
  repeat (rewrite lookup_insert; case_decide; simplify_eq/=); try done.

(** Two runs end in the same state. *)
Ltac state_eq := f_equal; f_equal; f_equal; map_eq_tac.







Lemma walk_length step fuel e σ xs σ' :
  walk step fuel e σ = Some (xs, σ') → length xs ≤ fuel.
Proof.
  revert e σ xs. induction fuel as [|fuel IH]; intros [a|] σ xs; simpl;
    try (intros [= <- <-]; simpl; lia); try done.
  unfold mbind, M_bind.
  destruct (step (linkerFor (Some a)) σ) as [[e' σ1]|]; [|done].
  destruct (walk step fuel e' σ1) as [[rest σ2]|] eqn:Hw; [|done].
  intros [= <- <-]. apply IH in Hw. simpl. lia.
Qed.

Lemma chain_allocated f h (xs : list positive) n x :
  chain f h xs n → x ∈ xs → is_Some (h !! x).
Proof.
  induction xs as [|y xs IH]; simpl.
  - intros _ Hx. by apply elem_of_nil in Hx.
  - intros [Hy Hrest] [->|Hx]%elem_of_cons; [|by apply IH].
    destruct (h !! y); [by eexists|done].
Qed.

Lemma chain_length_size f h (xs : list positive) :
  chain f h xs None → length xs ≤ size h.
Proof.
  intros Hch. pose proof (chain_NoDup _ _ _ Hch) as Hnd.
  rewrite <-(size_list_to_set (C := gset positive)) by done.
  rewrite <-size_dom. apply subseteq_size.
  intros x Hx%elem_of_list_to_set. apply elem_of_dom. by eapply chain_allocated.
Qed.

(** X2. An iteration along [Next] (or [Prev]) that ends at [nil] has changed
    nothing, has met no element twice, started with the element it was given
    and made no more steps than its fuel; every element it met is live. *)
Theorem iteration_is_read_only_and_duplicate_free fuel e σ xs σ' :
  iterate fuel e σ = Some (xs, σ') ∨ iterate_back fuel e σ = Some (xs, σ') →
  σ' = σ ∧ NoDup xs ∧ hd_error xs = e ∧ length xs ≤ fuel ∧
  ∀ x, x ∈ xs → allocated σ x.
Proof.
  intros [Hw|Hw]; pose proof (walk_length _ _ _ _ _ _ Hw) as Hlen.
  - apply (walk_chain next Next Next_field) in Hw as (-> & -> & Hch).
    split_and!; try done; [by eapply chain_NoDup|].
    intros x Hx. by eapply chain_allocated.
  - apply (walk_chain prev Prev Prev_field) in Hw as (-> & -> & Hch).
    split_and!; try done; [by eapply chain_NoDup|].
    intros x Hx. by eapply chain_allocated.
Qed.

Lemma iteration_is_read_only_and_duplicate_free_witness :
  iterate 7 (Some 1%positive) demo_lists = Some ([1; 2; 3]%positive, demo_lists) ∧
  NoDup [1; 2; 3]%positive ∧
  iterate_back 7 (Some 3%positive) demo_lists
    = Some ([3; 2; 1]%positive, demo_lists) ∧
  NoDup [3; 2; 1]%positive.
Proof.
  split_and!; [done| |done|].
  - by destruct (iteration_is_read_only_and_duplicate_free 7 (Some 1%positive)
                   demo_lists [1; 2; 3]%positive demo_lists (or_introl eq_refl))
      as (_ & Hnd & _).
  - by destruct (iteration_is_read_only_and_duplicate_free 7 (Some 3%positive)
                   demo_lists [3; 2; 1]%positive demo_lists (or_intror eq_refl))
      as (_ & Hnd & _).
Defined.

(** X3. On a store of fewer than [2^63] elements, whenever the iteration idiom
    [for e := l.Front(); e != nil; e = e.Next()] ends, [Len] returns the
    number of elements it visited and changes nothing.  Only the [next]
    links matter. *)
Theorem Len_counts_the_iteration σ (l : positive) fuel xs σ' :
  (Z.of_nat (size (elems σ)) < 2 ^ 63)%Z →
  traverse fuel (Some l) σ = Some (xs, σ') →
  Len fuel (Some l) σ = Some (Z.of_nat (length xs), σ).
Proof.
  intros Hbound. unfold traverse, Len, mbind, M_bind.
  destruct (Front (Some l) σ) as [[e σ1]|] eqn:Hfront; [|done].
  assert (σ1 = σ) as ->.
  { revert Hfront. unfold_ops. destruct (lists σ !! l); by intros [= _ <-]. }
  intros Hw. pose proof (walk_length _ _ _ _ _ _ Hw) as Hlen.
  apply (walk_chain next Next Next_field) in Hw as (_ & -> & Hch).
  pose proof (chain_length_size _ _ _ Hch).
  rewrite Len_loop_chain; [done..|lia|lia].
Qed.

Lemma Len_counts_the_iteration_witness :
  Len 5 (Some 10%positive) demo_lists = Some (3%Z, demo_lists).
Proof.
  apply (Len_counts_the_iteration demo_lists 10%positive 5 [1; 2; 3]%positive
           demo_lists); by vm_compute.
Defined.



(** X4. On a consistent list [Empty()] and [Len()] return without changing the
    state, and [Empty()] is true exactly when [Len()] is [0], exactly when
    [Front()] is [nil], and exactly when [Back()] is [nil]. *)
Theorem emptiness_tests_agree σ (l : positive) :
  (Z.of_nat (size (elems σ)) < 2 ^ 63)%Z →
  consistent σ l →
  ∃ b n fuel,
    Empty (Some l) σ = Some (b, σ) ∧
    Len fuel (Some l) σ = Some (n, σ) ∧
    (b = true ↔ n = 0%Z) ∧
    (b = true ↔ eval (Front (Some l)) σ = Some None) ∧
    (b = true ↔ eval (Back (Some l)) σ = Some None).
Proof.
  intros Hbound [xs Hl]%consistent_is_list.
  pose proof (is_list_length_size _ _ _ Hl) as Hsize.
  exists (bool_decide (xs = [])), (Z.of_nat (length xs)), (length xs).
  unfold eval. rewrite (is_list_Empty _ _ _ Hl), (is_list_Front _ _ _ Hl),
    (is_list_Back _ _ _ Hl), (is_list_Len _ _ _ _ Hl) by lia. simpl.
  rewrite bool_decide_eq_true. split_and!; try done.
  - rewrite <-length_zero_iff_nil. lia.
  - rewrite <-head_None. split; [by intros ->|by intros [= ->]].
  - rewrite <-last_None. split; [by intros ->|by intros [= ->]].
Qed.

Lemma emptiness_tests_agree_witness :
  ∃ b n fuel,
    Empty (Some 12%positive) demo_lists = Some (b, demo_lists) ∧
    Len fuel (Some 12%positive) demo_lists = Some (n, demo_lists) ∧
    (b = true ↔ n = 0%Z) ∧
    (b = true ↔ eval (Front (Some 12%positive)) demo_lists = Some None) ∧
    (b = true ↔ eval (Back (Some 12%positive)) demo_lists = Some None).
Proof.
  apply emptiness_tests_agree; [by vm_compute|].
  apply (is_list_consistent _ _ []). by_compute.
Defined.

(** Once the loop of [Len] has entered a set of elements closed under
    [next], it cannot leave it, and uses up any fuel. *)
Lemma Len_loop_closed (S : positive → Prop) σ :
  (∀ x, S x → ∃ en y, elems σ !! x = Some en ∧ next en = Some y ∧ S y) →
  ∀ fuel x c, S x → Len_loop fuel (Some x) c σ = None.
Proof.
  intros Hclosed. induction fuel as [|fuel IH]; intros x c Hx; simpl; [done|].
  destruct (Hclosed x Hx) as (en & y & Hen & Hy & HS).
  unfold mbind, M_bind, linkerFor. rewrite Next_field, Hen, Hy. by apply IH.
Qed.

Lemma Next_n_closed (S : positive → Prop) σ :
  (∀ x, S x → ∃ en y, elems σ !! x = Some en ∧ next en = Some y ∧ S y) →
  ∀ k x, S x → ∃ y, Next_n k (Some x) σ = Some (Some y, σ) ∧ S y.
Proof.
  intros Hclosed. induction k as [|k IH]; intros x Hx; simpl; [by exists x|].
  destruct (Hclosed x Hx) as (en & y & Hen & Hy & HS).
  unfold mbind, M_bind, linkerFor. rewrite Next_field, Hen, Hy. by apply IH.
Qed.

Lemma is_ring_closed σ (xs : list positive) :
  is_ring σ xs →
  ∀ x, x ∈ xs → ∃ en y, elems σ !! x = Some en ∧ next en = Some y ∧ y ∈ xs.
Proof.
  intros Hr x (l1 & l2 & ->)%list_elem_of_split.
  apply is_ring_from in Hr. pose proof (is_ring_lookup _ _ _ Hr) as Hx.
  destruct (l2 ++ l1) as [|y rest] eqn:E; simpl in Hx.
  - exists (Entry (Some x) (last [x])), x. split_and!; [done..|set_solver].
  - assert (y ∈ l2 ++ l1) by (rewrite E; set_solver).
    eexists _, y. split_and!; [exact Hx|done|set_solver].
Qed.

(** X5. If the head of a list is a member of a ring, no dereference of the loop
    of [Len] fails and its pointer never becomes [nil]: [Len], and the
    iteration idiom, do not return, whatever the fuel. *)
Theorem Len_never_returns_on_a_ring σ (l : positive) L (xs : list positive) e :
  lists σ !! l = Some L → head L = Some e → is_ring σ xs → e ∈ xs →
  (∀ k, ∃ y, Next_n k (Some e) σ = Some (Some y, σ)) ∧
  (∀ fuel, Len fuel (Some l) σ = None) ∧
  (∀ fuel, traverse fuel (Some l) σ = None).
Proof.
  intros Hl Hhd Hr He. pose proof (is_ring_closed _ _ Hr) as Hclosed.
  split_and!.
  - intros k. destruct (Next_n_closed _ _ Hclosed k e He) as (y & ? & _). eauto.
  - intros fuel. unfold Len, Front, get_head, deref_list, mbind, M_bind, mret, M_ret.
    rewrite Hl, Hhd. by apply (Len_loop_closed _ _ Hclosed).
  - intros fuel. unfold traverse, Front, get_head, deref_list, mbind, M_bind, mret, M_ret.
    rewrite Hl, Hhd.
    destruct (iterate fuel (Some e) σ) as [[ys σ1]|] eqn:Hw; [|done].
    exfalso. apply (walk_chain next Next Next_field) in Hw as (_ & Hhead & Hch).
    destruct ys as [|y ys]; [done|]. injection Hhead as <-.
    clear Hl Hhd. revert e He Hch. induction ys as [|z ys IH]; intros e He.
    + intros [Hn _]. destruct (Hclosed e He) as (en & y & Hen & Hy & _).
      rewrite Hen in Hn. simpl in Hn. congruence.
    + intros [Hn Hrest]. destruct (Hclosed e He) as (en & y & Hen & Hy & HS).
      rewrite Hen in Hn. simpl in Hn. apply (IH z); [|done]. congruence.
Qed.

Lemma Len_never_returns_on_a_ring_witness :
  Len 1000 (Some 10%positive) demo_ring_as_list = None ∧
  traverse 1000 (Some 10%positive) demo_ring_as_list = None.
Proof.
  destruct (Len_never_returns_on_a_ring demo_ring_as_list 10%positive
              (ListHdr (Some 1%positive) (Some 3%positive)) [1; 2; 3]%positive
              1%positive) as (_ & Hlen & Htr);
    [reflexivity|reflexivity|by_compute|by_compute|].
  split; [apply Hlen|apply Htr].
Defined.



Lemma chain_inner_closed f h (xs ys : list positive) z n :
  chain f h (xs ++ z :: ys) n →
  ∀ y, y ∈ xs → ∃ en w, h !! y = Some en ∧ f en = Some w ∧ w ∈ xs ++ [z].
Proof.
  induction xs as [|x xs IH]; simpl.
  - intros _ y Hy. by apply elem_of_nil in Hy.
  - intros [Hx Hrest] y [->|Hy]%elem_of_cons.
    + destruct (h !! x) as [en|]; [|done]. simpl in Hx. injection Hx as Hx.
      exists en. destruct xs as [|x' xs]; simpl in *; eexists; split_and!;
        try done; set_solver.
    + destruct (IH Hrest y Hy) as (en & w & ? & ? & ?).
      exists en, w. split_and!; [done..|set_solver].
Qed.

(** X6. [PushFront(e)] of an element that is already a member of [l] returns,
    with [e] as the head of a chain of [next] links that never reaches [nil]:
    afterwards [Len] does not return, whatever the fuel. *)
Theorem PushFront_of_a_member_makes_a_cycle σ (l : positive)
    (xs : list positive) e :
  is_list σ l xs → e ∈ xs →
  ∃ σ', PushFront (Some l) (Some e) σ = Some (tt, σ') ∧
    eval (Front (Some l)) σ' = Some (Some e) ∧
    (∀ k, ∃ y, Next_n k (Some e) σ' = Some (Some y, σ')) ∧
    (∀ fuel, Len fuel (Some l) σ' = None).
Proof.
  destruct σ as [h ls].
  intros (Hl & Hnd & Hseg) (l1 & l2 & ->)%list_elem_of_split. simpl in *.
  pose proof Hseg as [Hch _]%dseg_chains.
  pose proof (chain_inner_closed _ _ _ _ _ _ Hch) as Hinner.
  apply dseg_app in Hseg as [Hs1 [He Hs2]]. simpl in He. split_NoDup.
  assert (∃ h' ls',
    PushFront (Some l) (Some e) (State h ls) = Some (tt, State h' ls') ∧
    (∃ L, ls' !! l = Some L ∧ head L = Some e) ∧
    ∀ x, x ∈ l1 ++ [e] →
      ∃ en y, h' !! x = Some en ∧ next en = Some y ∧ y ∈ l1 ++ [e])
    as (h' & ls' & Hrun & (L & HL & Hhd) & Hclosed).
  { destruct l1 as [|x l1]; simpl in *.
    - run. eexists _, _. split; [reflexivity|]. split.
      + eexists. by rewrite lookup_insert_eq.
      + intros x ->%list_elem_of_singleton. run.
        eexists _, _. split_and!; [done..|set_solver].
    - destruct Hs1 as [Hx Hs1]. split_NoDup. assert (e ≠ x) by set_solver.
      run. eexists _, _. split; [reflexivity|]. split.
      + eexists. by rewrite lookup_insert_eq.
      + intros y Hy.
        destruct (decide (y = x)) as [->|Hyx]; [|destruct (decide (y = e)) as [->|Hye]].
        * run. destruct (Hinner x) as (en & w & Hen & Hw & Hin); [set_solver|].
          rewrite Hx in Hen. injection Hen as <-. simpl in Hw.
          eexists _, w. by split_and!.
        * run. eexists _, x. split_and!; [done..|set_solver].
        * run. rewrite ?lookup_insert_ne by done.
          apply Hinner. set_solver. }
  exists (State h' ls'). split; [done|]. unfold eval. split_and!.
  - unfold_ops. simpl. rewrite HL. simpl. by rewrite Hhd.
  - intros k.
    destruct (Next_n_closed (λ x, x ∈ l1 ++ [e]) (State h' ls') Hclosed k e)
      as (y & ? & _); [set_solver|]. eauto.
  - intros fuel. unfold Len, Front, get_head, deref_list, mbind, M_bind, mret, M_ret.
    simpl. rewrite HL, Hhd.
    apply (Len_loop_closed (λ x, x ∈ l1 ++ [e]) (State h' ls') Hclosed).
    set_solver.
Qed.

Lemma PushFront_of_a_member_makes_a_cycle_witness :
  ∃ σ', PushFront (Some 10%positive) (Some 2%positive) demo_lists = Some (tt, σ') ∧
    Len 1000 (Some 10%positive) σ' = None.
Proof.
  destruct (PushFront_of_a_member_makes_a_cycle demo_lists 10%positive
              [1; 2; 3]%positive 2%positive) as (σ' & Hrun & _ & _ & Hlen);
    [by_compute..|].
  exists σ'. split; [done|apply Hlen].
Defined.



(** X7. Whatever the state, every operation fails on a [nil] element it has to
    read or write, and every operation that reads the header fails on a
    [nil] list. *)
Theorem nil_arguments_fail σ :
  (∀ l, PushFront l None σ = None ∧ PushBack l None σ = None ∧
        Remove l None σ = None) ∧
  (∀ l b, InsertAfter l None b σ = None ∧ InsertAfter l b None σ = None ∧
          InsertBefore l None b σ = None ∧ InsertBefore l b None σ = None) ∧
  (∀ other, stringRingInit None σ = None ∧ stringRingRemove None σ = None ∧
            stringRingEmpty None σ = None ∧
            stringRingAdd None other σ = None ∧
            stringRingAdd other None σ = None) ∧
  (∀ e m fuel, Reset None σ = None ∧ Empty None σ = None ∧
               Front None σ = None ∧ Back None σ = None ∧
               Len fuel None σ = None ∧
               PushFront None e σ = None ∧ PushBack None e σ = None ∧
               PushFrontList None m σ = None ∧ PushFrontList m None σ = None ∧
               PushBackList None m σ = None ∧ PushBackList m None σ = None).
Proof.
  split_and!; intros; split_and!;
    unfold Len; unfold_ops; simpl; repeat case_match; simplify_eq/=; done.
Qed.


(** X8. Inserting an element that is no member, by [PushFront], [PushBack],
    [InsertAfter] or [InsertBefore], and removing it again leads back to the
    initial state, but for the links of [e], which are [nil]. *)
Theorem Remove_undoes_insertion σ (l : positive) (xs : list positive) e :
  is_list σ l xs → allocated σ e → e ∉ xs →
  let restored := State (<[e := Entry None None]> (elems σ)) (lists σ) in
  (PushFront (Some l) (Some e);; Remove (Some l) (Some e)) σ
    = Some (tt, restored) ∧
  (PushBack (Some l) (Some e);; Remove (Some l) (Some e)) σ
    = Some (tt, restored) ∧
  ∀ b, b ∈ xs →
    (InsertAfter (Some l) (Some b) (Some e);; Remove (Some l) (Some e)) σ
      = Some (tt, restored) ∧
    (InsertBefore (Some l) (Some b) (Some e);; Remove (Some l) (Some e)) σ
      = Some (tt, restored).
Proof.
  destruct σ as [h ls]. intros (Hl & Hnd & Hseg) [en He] Hfresh. simpl in *.
  split_and!.
  - destruct xs as [|x xs]; [|destruct Hseg as [Hx Hseg]]; split_NoDup;
      simpl in *; run; state_eq.
  - destruct xs as [|x xs _] using rev_ind;
      [|pose proof (dseg_last _ _ _ _ _ Hseg) as Hx; split_NoDup;
        rewrite last_snoc in Hl]; simpl in *; run; state_eq.
  - intros b (l1 & l2 & ->)%list_elem_of_split.
    apply dseg_app in Hseg as [Hs1 [Hb Hs2]]. simpl in Hb. split_NoDup. split.
    + destruct l2 as [|c l2]; [|destruct Hs2 as [Hc Hs2]]; split_NoDup;
        rewrite ?last_app_cons in Hl; simpl in *; run; state_eq.
    + destruct l1 as [|c l1 _] using rev_ind;
        [|pose proof (dseg_last _ _ _ _ _ Hs1) as Hc; rewrite last_or_snoc in Hb;
          split_NoDup]; simpl in *; run; state_eq.
Qed.

Lemma Remove_undoes_insertion_witness :
  (InsertAfter (Some 10%positive) (Some 2%positive) (Some 4%positive);;
   Remove (Some 10%positive) (Some 4%positive)) demo_lists
    = Some (tt, demo_lists) ∧
  (PushFront (Some 10%positive) (Some 8%positive);;
   Remove (Some 10%positive) (Some 8%positive)) demo_lists
    = Some (tt, State (<[8%positive := Entry None None]> (elems demo_lists))
                  (lists demo_lists)).
Proof.
  split.
  - destruct (Remove_undoes_insertion demo_lists 10%positive [1; 2; 3]%positive
                4%positive) as (_ & _ & Hins); [by_compute..|].
    destruct (Hins 2%positive) as [-> _]; [by_compute|].
    reflexivity.
  - destruct (Remove_undoes_insertion demo_lists 10%positive [1; 2; 3]%positive
                8%positive) as (Hpf & _); [by_compute..|].
    exact Hpf.
Defined.



(** X9. [Remove] reads the list header only when a link of [e] is [nil].  For a
    member [e] of [m] that is neither its head nor its tail, [Remove(e)]
    through any list pointer, even [nil] or that of another list, does what
    [m.Remove(e)] does: it unlinks [e] from [m] and writes no header. *)
Theorem Remove_of_interior_ignores_list σ (m : positive) (xs : list positive) e :
  is_list σ m xs → e ∈ xs → hd_error xs ≠ Some e → last xs ≠ Some e →
  ∀ l', Remove l' (Some e) σ = Remove (Some m) (Some e) σ ∧
    ∃ σ', Remove l' (Some e) σ = Some (tt, σ') ∧
      is_list σ' m (filter (λ x, x ≠ e) xs) ∧ lists σ' = lists σ.
Proof.
  intros Hm He Hhd Hlast l'.
  destruct (Remove_filter_spec _ _ _ _ Hm He) as (σ' & Hrun & Hm' & _).
  assert (Heq : ∀ l1 l2 : option positive,
            Remove l1 (Some e) σ = Remove l2 (Some e) σ).
  { apply list_elem_of_split in He as (l1 & l2 & ->).
    pose proof (is_list_lookup _ _ _ _ _ Hm) as Hlk.
    destruct l1 as [|p l1 _] using rev_ind; [done|].
    destruct l2 as [|n l2]; [by rewrite last_snoc in Hlast|].
    rewrite last_snoc in Hlk. simpl in Hlk.
    intros k1 k2.
    unfold Remove, Prev, Next, deref, linkerFor, mbind, M_bind, mret, M_ret.
    by repeat (rewrite Hlk; simpl). }
  split; [apply Heq|]. exists σ'. rewrite (Heq l' (Some m)). split_and!; try done.
  clear Heq. destruct σ as [h ls]. revert Hrun.
  apply list_elem_of_split in He as (l1 & l2 & ->).
  pose proof (is_list_lookup _ _ _ _ _ Hm) as Hlk.
  destruct l1 as [|p l1 _] using rev_ind; [done|].
  destruct l2 as [|n l2]; [by rewrite last_snoc in Hlast|].
  rewrite last_snoc in Hlk. simpl in Hlk.
  assert (allocated (State h ls) p) as [enp Hp].
  { eapply (is_list_allocated _ m); [done|]. set_solver. }
  assert (allocated (State h ls) n) as [enn Hn].
  { eapply (is_list_allocated _ m); [done|]. set_solver. }
  simpl in Hp, Hn, Hlk.
  destruct Hm as (_ & Hnd & _). split_NoDup.
  assert (p ≠ e) by set_solver. assert (n ≠ e) by set_solver.
  assert (p ≠ n) by set_solver.
  run. by intros [= <-].
Qed.

Lemma Remove_of_interior_ignores_list_witness :
  Remove None (Some 2%positive) demo_lists
    = Remove (Some 10%positive) (Some 2%positive) demo_lists ∧
  ∃ σ', Remove (Some 11%positive) (Some 2%positive) demo_lists = Some (tt, σ') ∧
    is_list σ' 10 [1; 3]%positive.
Proof.
  split.
  - apply (Remove_of_interior_ignores_list demo_lists 10%positive
             [1; 2; 3]%positive 2%positive); by_compute.
  - destruct (Remove_of_interior_ignores_list demo_lists 10%positive
                [1; 2; 3]%positive 2%positive ltac:(by_compute)
                ltac:(by_compute) ltac:(by_compute) ltac:(by_compute)
                (Some 11%positive)) as (_ & σ' & Hrun & Hl & _).
    by exists σ'.
Defined.

(** X10. Removing a member and inserting it again where it was (at the front if
    it was the head, at the back if it was the tail, after its former
    predecessor, or before its former successor) leads back to exactly the
    initial state. *)
Theorem reinsertion_undoes_Remove σ (l : positive) :
  (∀ e rest, is_list σ l (e :: rest) →
     (Remove (Some l) (Some e);; PushFront (Some l) (Some e)) σ = Some (tt, σ)) ∧
  (∀ front e, is_list σ l (front ++ [e]) →
     (Remove (Some l) (Some e);; PushBack (Some l) (Some e)) σ = Some (tt, σ)) ∧
  (∀ (l1 : list positive) b e l2, is_list σ l (l1 ++ b :: e :: l2) →
     (Remove (Some l) (Some e);; InsertAfter (Some l) (Some b) (Some e)) σ
       = Some (tt, σ)) ∧
  (∀ (l1 : list positive) e a l2, is_list σ l (l1 ++ e :: a :: l2) →
     (Remove (Some l) (Some e);; InsertBefore (Some l) (Some a) (Some e)) σ
       = Some (tt, σ)).
Proof.
  destruct σ as [h ls]. split_and!.
  - intros e rest (Hl & Hnd & [He Hseg]). simpl in *.
    destruct rest as [|x rest]; [|destruct Hseg as [Hx Hseg]]; split_NoDup;
      simpl in *; run; state_eq.
  - intros front e (Hl & Hnd & Hseg). simpl in *.
    pose proof (dseg_last _ _ _ _ _ Hseg) as He. rewrite last_or_None in He.
    rewrite last_snoc in Hl.
    destruct front as [|x front _] using rev_ind;
      [|apply dseg_app in Hseg as [Hseg _];
        pose proof (dseg_last _ _ _ _ _ Hseg) as Hx; rewrite last_snoc in He;
        split_NoDup]; simpl in *; run; state_eq.
  - intros l1 b e l2 (Hl & Hnd & Hseg). simpl in *.
    apply dseg_app in Hseg as [_ [Hb [He Hseg]]]. simpl in *. split_NoDup.
    destruct l2 as [|c l2]; [|destruct Hseg as [Hc Hseg]]; split_NoDup;
      rewrite ?last_app_cons, ?last_cons_cons in Hl; simpl in *; run; state_eq.
  - intros l1 e a l2 (Hl & Hnd & Hseg). simpl in *.
    apply dseg_app in Hseg as [Hs1 [He [Ha Hseg]]]. simpl in *. split_NoDup.
    rewrite last_or_None in He.
    destruct l1 as [|c l1 _] using rev_ind;
      [|pose proof (dseg_last _ _ _ _ _ Hs1) as Hc; rewrite last_snoc in He;
        split_NoDup]; simpl in *; run; state_eq.
Qed.

Lemma reinsertion_undoes_Remove_witness :
  (Remove (Some 10%positive) (Some 1%positive);;
   PushFront (Some 10%positive) (Some 1%positive)) demo_lists
    = Some (tt, demo_lists) ∧
  (Remove (Some 10%positive) (Some 2%positive);;
   InsertAfter (Some 10%positive) (Some 1%positive) (Some 2%positive)) demo_lists
    = Some (tt, demo_lists).
Proof.
  destruct (reinsertion_undoes_Remove demo_lists 10%positive)
    as (Hfront & _ & Hafter & _).
  split.
  - apply (Hfront 1%positive [2; 3]%positive). by_compute.
  - apply (Hafter [] 1%positive 2%positive [3]%positive). by_compute.
Defined.



(** X11. On a non-empty list, [PushFront(e)] does exactly what
    [InsertBefore(head, e)] does, and [PushBack(e)] exactly what
    [InsertAfter(tail, e)] does. *)
Theorem Push_is_Insert_at_the_end σ (l : positive) (xs : list positive) e :
  is_list σ l xs → allocated σ e → e ∉ xs →
  (∀ h, hd_error xs = Some h →
     PushFront (Some l) (Some e) σ = InsertBefore (Some l) (Some h) (Some e) σ) ∧
  (∀ t, last xs = Some t →
     PushBack (Some l) (Some e) σ = InsertAfter (Some l) (Some t) (Some e) σ).
Proof.
  destruct σ as [h ls]. intros (Hl & Hnd & Hseg) [en He] Hfresh. simpl in *.
  split.
  - intros x (rest & ->)%head_Some. destruct Hseg as [Hx Hseg]. split_NoDup.
    simpl in *. run. state_eq.
  - intros x (front & ->)%last_Some.
    pose proof (dseg_last _ _ _ _ _ Hseg) as Hx. split_NoDup.
    rewrite last_snoc in Hl. simpl in *. run. state_eq.
Qed.

Lemma Push_is_Insert_at_the_end_witness :
  PushFront (Some 10%positive) (Some 4%positive) demo_lists
    = InsertBefore (Some 10%positive) (Some 1%positive) (Some 4%positive)
        demo_lists ∧
  PushBack (Some 10%positive) (Some 4%positive) demo_lists
    = InsertAfter (Some 10%positive) (Some 3%positive) (Some 4%positive)
        demo_lists.
Proof.
  destruct (Push_is_Insert_at_the_end demo_lists 10%positive
              [1; 2; 3]%positive 4%positive) as [Hfront Hback];
    [by_compute..|].
  split; [by apply Hfront|by apply Hback].
Defined.

(** X12. Splicing an empty list [m] onto [l], at either end, changes nothing.
    Splicing [m] onto an empty [l], at either end, writes no element: [l]
    takes the head and tail of [m] and [m] becomes empty. *)
Theorem splice_with_an_empty_list σ (l m : positive) (xs : list positive) :
  (is_list σ l xs → is_list σ m [] →
     PushFrontList (Some l) (Some m) σ = Some (tt, σ) ∧
     PushBackList (Some l) (Some m) σ = Some (tt, σ)) ∧
  (is_list σ l [] → is_list σ m xs →
     let moved :=
       State (elems σ)
         (<[m := ListHdr None None]>
            (<[l := ListHdr (hd_error xs) (last xs)]> (lists σ))) in
     PushFrontList (Some l) (Some m) σ = Some (tt, moved) ∧
     PushBackList (Some l) (Some m) σ = Some (tt, moved)).
Proof.
  destruct σ as [h ls]. split.
  - intros (Hl & _) (Hm & _). simpl in *.
    destruct (decide (l = m)) as [->|Hlm].
    + rewrite Hl in Hm. destruct xs as [|x xs]; [|done].
      simpl in *. split; run; state_eq.
    + destruct xs as [|x xs]; simpl in *; split; run; state_eq.
  - intros (Hl & _) (Hm & _). simpl in *.
    destruct (decide (l = m)) as [->|Hlm].
    + rewrite Hl in Hm. injection Hm as <- <-. split; run; state_eq.
    + split; run; state_eq.
Qed.

Lemma splice_with_an_empty_list_witness :
  PushBackList (Some 10%positive) (Some 12%positive) demo_lists
    = Some (tt, demo_lists) ∧
  eval (PushFrontList (Some 12%positive) (Some 10%positive);;
        traverse 3 (Some 12%positive)) demo_lists = Some [1; 2; 3]%positive.
Proof.
  split.
  - destruct (splice_with_an_empty_list demo_lists 10%positive 12%positive
                [1; 2; 3]%positive) as [Hnoop _].
    apply Hnoop; by_compute.
  - destruct (splice_with_an_empty_list demo_lists 12%positive 10%positive
                [1; 2; 3]%positive) as [_ Hmove].
    destruct Hmove as [Hpf _]; [by_compute..|].
    unfold eval, mbind, M_bind at 1. by rewrite Hpf.
Defined.

(** X13. For two distinct lists without a common element, [l.PushFrontList(m)]
    and [m.PushBackList(l)] link the elements in exactly the same way, into
    [m]'s sequence followed by [l]'s; they differ only in which header, [l]'s
    or [m]'s, holds the result while the other is empty. *)
Theorem PushFrontList_mirrors_PushBackList σ (l m : positive)
    (xs ms : list positive) :
  is_list σ l xs → is_list σ m ms → (∀ x, x ∈ xs → x ∉ ms) → l ≠ m →
  ∃ σ1 σ2,
    PushFrontList (Some l) (Some m) σ = Some (tt, σ1) ∧
    PushBackList (Some m) (Some l) σ = Some (tt, σ2) ∧
    elems σ1 = elems σ2 ∧
    lists σ1 !! l = lists σ2 !! m ∧
    lists σ1 !! m = lists σ2 !! l ∧
    is_list σ1 l (ms ++ xs) ∧ is_list σ2 m (ms ++ xs).
Proof.
  intros Hl Hm Hdisj Hlm.
  destruct (PushFrontList_spec _ _ _ _ _ Hl Hm Hdisj) as (σ1 & Hrun1 & Hl1 & Hm1).
  destruct (PushBackList_spec _ _ _ _ _ Hm Hl) as (σ2 & Hrun2 & Hm2 & Hl2).
  { intros x Hx Hx'. by apply (Hdisj x). }
  exists σ1, σ2. split_and!; try done.
  - revert Hrun1 Hrun2. clear Hl1 Hm1 Hl2 Hm2. destruct σ as [h ls].
    destruct Hl as (Hl & Hndl & Hsl), Hm as (Hm & Hndm & Hsm). simpl in *.
    assert (Hms : ms = [] ∨ ∃ mh mt ms', ms = ms' ++ [mt] ∧
              hd_error ms = Some mh ∧ last ms = Some mt).
    { destruct ms as [|mt ms _] using rev_ind; [by left|right].
      destruct (hd_error (ms ++ [mt])) as [mh|] eqn:Hmh; [|by destruct ms].
      exists mh, mt, ms. by rewrite last_snoc. }
    destruct Hms as [->|(mh & mt & ms' & Hms & Hmh & Hmt)].
    { destruct xs as [|x xs]; simpl in *; run; by intros [= <-] [= <-]. }
    rewrite Hmh, Hmt in Hm. rewrite Hms in Hsm.
    pose proof (dseg_last _ _ _ _ _ Hsm) as Hlk.
    destruct xs as [|x xs]; simpl in *; [run; by intros [= <-] [= <-]|].
    destruct Hsl as [Hx Hsl].
    assert (x ≠ mt) by (intros ->; apply (Hdisj mt); set_solver).
    run. intros [= <-] [= <-]. simpl. map_eq_tac.
  - destruct Hl1 as (-> & _), Hm2 as (-> & _). done.
  - destruct Hm1 as (-> & _), Hl2 as (-> & _). done.
Qed.

Lemma PushFrontList_mirrors_PushBackList_witness :
  ∃ σ1 σ2,
    PushFrontList (Some 10%positive) (Some 11%positive) demo_lists
      = Some (tt, σ1) ∧
    PushBackList (Some 11%positive) (Some 10%positive) demo_lists
      = Some (tt, σ2) ∧
    elems σ1 = elems σ2 ∧
    is_list σ1 10 [5; 6; 1; 2; 3]%positive ∧
    is_list σ2 11 [5; 6; 1; 2; 3]%positive.
Proof.
  destruct (PushFrontList_mirrors_PushBackList demo_lists 10%positive
              11%positive [1; 2; 3]%positive [5; 6]%positive)
    as (σ1 & σ2 & ? & ? & ? & _ & _ & ? & ?);
    [by_compute|by_compute|apply Forall_forall; by_compute|done|].
  by exists σ1, σ2.
Defined.



Ltac untouched :=
  simpl; rewrite ?lookup_insert_ne by congruence; try done.

(** What a successful [Remove] leaves untouched. *)
Lemma Remove_frame σ (l e : positive) en σ' :
  elems σ !! e = Some en →
  Remove (Some l) (Some e) σ = Some (tt, σ') →
  (∀ x, x ≠ e → Some x ≠ prev en → Some x ≠ next en →
     elems σ' !! x = elems σ !! x) ∧
  (∀ k, k ≠ l → lists σ' !! k = lists σ !! k) ∧
  (prev en ≠ None → next en ≠ None → lists σ' = lists σ).
Proof.
  destruct σ as [h ls], en as [n p]. simpl. intros He.
  unfold_ops. simpl. rewrite He. simpl.
  destruct p as [p|], n as [n|]; simpl; intros Hrun;
    repeat (first [ progress simplify_eq/= | case_match ]); try done;
    (split_and!; [intros x ???; untouched|intros k ?; untouched|
                  intros ??; untouched]).
Qed.

Ltac crack_run Hrun :=
  revert Hrun; unfold_ops; simpl; intros Hrun;
  repeat (first [ progress simplify_eq/= | case_match ]); try done.

(** What a successful insertion leaves untouched. *)
Lemma insertion_frames σ (l e : positive) L σ' :
  lists σ !! l = Some L →
  (PushFront (Some l) (Some e) σ = Some (tt, σ') →
     (∀ x, x ≠ e → Some x ≠ head L → elems σ' !! x = elems σ !! x) ∧
     (∀ k, k ≠ l → lists σ' !! k = lists σ !! k)) ∧
  (PushBack (Some l) (Some e) σ = Some (tt, σ') →
     (∀ x, x ≠ e → Some x ≠ tail L → elems σ' !! x = elems σ !! x) ∧
     (∀ k, k ≠ l → lists σ' !! k = lists σ !! k)) ∧
  (∀ b enb, elems σ !! b = Some enb →
     (InsertAfter (Some l) (Some b) (Some e) σ = Some (tt, σ') →
        (∀ x, x ≠ e → x ≠ b → Some x ≠ next enb →
           elems σ' !! x = elems σ !! x) ∧
        (∀ k, k ≠ l → lists σ' !! k = lists σ !! k)) ∧
     (InsertBefore (Some l) (Some b) (Some e) σ = Some (tt, σ') →
        (∀ x, x ≠ e → x ≠ b → Some x ≠ prev enb →
           elems σ' !! x = elems σ !! x) ∧
        (∀ k, k ≠ l → lists σ' !! k = lists σ !! k))).
Proof.
  destruct σ as [h ls], L as [hd tl]. simpl. intros Hl. split_and!.
  - intros Hrun. crack_run Hrun; (split; [intros x ??|intros k ?]); untouched.
  - intros Hrun. crack_run Hrun; (split; [intros x ??|intros k ?]); untouched.
  - intros b [n p] Hb. split; intros Hrun; crack_run Hrun;
      (split; [intros x ???|intros k ?]); untouched.
Qed.

(** What a successful splice leaves untouched. *)
Lemma splice_frames σ (l m : positive) L M σ' :
  lists σ !! l = Some L → lists σ !! m = Some M →
  (PushFrontList (Some l) (Some m) σ = Some (tt, σ') →
     (∀ x, Some x ≠ head L → Some x ≠ tail M → elems σ' !! x = elems σ !! x) ∧
     (head L = None ∨ head M = None → elems σ' = elems σ) ∧
     (∀ k, k ≠ l → k ≠ m → lists σ' !! k = lists σ !! k)) ∧
  (PushBackList (Some l) (Some m) σ = Some (tt, σ') →
     (∀ x, Some x ≠ tail L → Some x ≠ head M → elems σ' !! x = elems σ !! x) ∧
     (head L = None ∨ head M = None → elems σ' = elems σ) ∧
     (∀ k, k ≠ l → k ≠ m → lists σ' !! k = lists σ !! k)).
Proof.
  destruct σ as [h ls], L as [lh lt], M as [mh mt]. simpl. intros Hl Hm.
  split; intros Hrun; crack_run Hrun;
    (split_and!; [intros x ??|intros [?|?]|intros k ??]); untouched.
Qed.



(** X14. For a member [e] of a ring, [RingEmpty(e)] returns, changes nothing, and
    is true exactly when the ring has no other member. *)
Theorem RingEmpty_iff_singleton σ (xs : list positive) e :
  is_ring σ xs → e ∈ xs →
  stringRingEmpty (Some e) σ = Some (bool_decide (length xs = 1), σ).
Proof.
  intros Hr (l1 & l2 & ->)%list_elem_of_split.
  apply is_ring_from in Hr. pose proof (is_ring_lookup _ _ _ Hr) as He.
  destruct Hr as (_ & Hnd & _).
  unfold stringRingEmpty, linkerFor, mbind, M_bind, mret, M_ret.
  rewrite Next_field, He. simpl. do 2 f_equal.
  rewrite length_app. simpl.
  destruct (l2 ++ l1) as [|y rest] eqn:E; simpl.
  - apply app_eq_nil in E as [-> ->]. simpl.
    by rewrite !bool_decide_eq_true_2.
  - apply NoDup_cons in Hnd as [Hne _].
    rewrite !bool_decide_eq_false_2; [done| |].
    + apply (f_equal length) in E. rewrite length_app in E. simpl in E. lia.
    + intros [= ->]. set_solver.
Qed.

Lemma RingEmpty_iff_singleton_witness :
  stringRingEmpty (Some 2%positive) demo_rings = Some (false, demo_rings) ∧
  stringRingEmpty (Some 4%positive) demo_rings = Some (true, demo_rings).
Proof.
  split.
  - apply (RingEmpty_iff_singleton demo_rings [1; 2; 3]%positive); by_compute.
  - apply (RingEmpty_iff_singleton demo_rings [4]%positive); by_compute.
Defined.

(** X15. An element whose [next] link is [nil], such as a zero-valued one or one
    just removed from a list, is not a ring: [RingEmpty] is false on it, and
    [RingRemove] of it and [RingAdd] after it fail. *)
Theorem ring_operations_need_RingInit σ (e : positive) :
  eval (Next (Some e)) σ = Some None →
  stringRingEmpty (Some e) σ = Some (false, σ) ∧
  stringRingRemove (Some e) σ = None ∧
  (∀ new, stringRingAdd (Some e) new σ = None).
Proof.
  unfold eval. rewrite Next_field. intros Hn.
  destruct (elems σ !! e) as [[n p]|] eqn:He; simplify_eq/=.
  split_and!; intros; unfold_ops; simpl; rewrite ?He; simpl; done.
Qed.

Lemma ring_operations_need_RingInit_witness :
  stringRingEmpty (Some 7%positive) demo_rings = Some (false, demo_rings) ∧
  stringRingRemove (Some 7%positive) demo_rings = None ∧
  stringRingAdd (Some 7%positive) (Some 4%positive) demo_rings = None.
Proof.
  destruct (ring_operations_need_RingInit demo_rings 7%positive eq_refl)
    as (? & ? & Hadd).
  split_and!; [done..|apply Hadd].
Defined.

(** X16. Adding an outside element [new] to a ring and removing it again leads
    back to the initial state, but for [new], which is a singleton ring. *)
Theorem RingRemove_undoes_RingAdd σ (xs : list positive) old new :
  is_ring σ xs → old ∈ xs → allocated σ new → new ∉ xs →
  (stringRingAdd (Some old) (Some new);; stringRingRemove (Some new)) σ
    = Some (tt, State (<[new := Entry (Some new) (Some new)]> (elems σ))
                  (lists σ)).
Proof.
  intros Hr (l1 & l2 & ->)%list_elem_of_split [en Hnew] Hfresh.
  apply is_ring_from in Hr. destruct σ as [h ls].
  destruct Hr as (_ & Hnd & [Hold Hseg]). simpl in *.
  assert (new ≠ old) by set_solver.
  assert (new ∉ l2 ++ l1) by set_solver.
  destruct (l2 ++ l1) as [|c rest]; [|destruct Hseg as [Hc Hseg]]; split_NoDup;
    simpl in *; run; state_eq.
Qed.

Lemma RingRemove_undoes_RingAdd_witness :
  (stringRingAdd (Some 2%positive) (Some 4%positive);;
   stringRingRemove (Some 4%positive)) demo_rings = Some (tt, demo_rings).
Proof.
  rewrite (RingRemove_undoes_RingAdd demo_rings [1; 2; 3]%positive 2%positive
             4%positive); [|by_compute..].
  reflexivity.
Defined.

(** X17. In a ring of at least two members, removing [e] and adding it again
    after its former predecessor leads back to exactly the initial state. *)
Theorem RingAdd_undoes_RingRemove σ (xs : list positive) e pv :
  is_ring σ xs → e ∈ xs → 1 < length xs →
  eval (Prev (Some e)) σ = Some (Some pv) →
  (stringRingRemove (Some e);; stringRingAdd (Some pv) (Some e)) σ
    = Some (tt, σ).
Proof.
  intros Hr (l1 & l2 & ->)%list_elem_of_split Hlen Hpv.
  apply is_ring_from in Hr. destruct σ as [h ls].
  rewrite length_app in Hlen. simpl in Hlen.
  assert (Hne : l2 ++ l1 ≠ []).
  { intros [-> ->]%app_eq_nil. simpl in Hlen. lia. }
  destruct Hr as (_ & Hnd & [He Hseg]). simpl in *.
  unfold eval in Hpv. rewrite Prev_field in Hpv. simpl in Hpv.
  rewrite He in Hpv. simpl in Hpv.
  destruct (l2 ++ l1) as [|c rest]; [done|]. clear Hne Hlen.
  destruct Hseg as [Hc Hseg]. split_NoDup.
  destruct rest as [|z mid _] using rev_ind.
  - simpl in *. simplify_eq/=. run. state_eq.
  - pose proof (dseg_last _ _ _ _ _ Hseg) as Hz. split_NoDup.
    rewrite last_cons, last_cons, last_snoc in Hpv, He. simplify_eq/=.
    assert (c ≠ pv) by set_solver. assert (e ≠ pv) by set_solver.
    run. state_eq.
Qed.

Lemma RingAdd_undoes_RingRemove_witness :
  (stringRingRemove (Some 2%positive);;
   stringRingAdd (Some 1%positive) (Some 2%positive)) demo_rings
    = Some (tt, demo_rings).
Proof.
  apply (RingAdd_undoes_RingRemove demo_rings [1; 2; 3]%positive 2%positive
           1%positive); [by_compute|by_compute|simpl; lia|reflexivity].
Defined.



(** The two ends of a non-empty list. *)
Lemma is_list_ends σ (l : positive) (xs : list positive) :
  is_list σ l xs → xs ≠ [] →
  ∃ a b na pb,
    lists σ !! l = Some (ListHdr (Some a) (Some b)) ∧
    elems σ !! a = Some (Entry na None) ∧
    elems σ !! b = Some (Entry None pb) ∧
    a ∈ xs ∧ b ∈ xs.
Proof.
  intros (Hl & Hnd & Hseg) Hne.
  destruct xs as [|a rest]; [done|].
  destruct (exists_last Hne) as (front & b & Hfb). 
  pose proof Hseg as [Ha _]. rewrite Hfb in Hseg, Hl |- *.
  pose proof (dseg_last _ _ _ _ _ Hseg) as Hb.
  rewrite last_snoc in Hl.
  assert (hd_error (front ++ [b]) = Some a) as Hhd by (by rewrite <-Hfb).
  rewrite Hhd in Hl.
  eexists a, b, _, _. split_and!; [done..| |set_solver].
  rewrite <-Hfb. set_solver.
Qed.

Lemma PushBackList_assoc_eq σ (l m k : positive)
    (xs ms ks : list positive) :
  is_list σ l xs → is_list σ m ms → is_list σ k ks →
  (∀ x, x ∈ xs → x ∉ ms) → (∀ x, x ∈ xs → x ∉ ks) → (∀ x, x ∈ ms → x ∉ ks) →
  l ≠ m → l ≠ k → m ≠ k →
  (PushBackList (Some l) (Some m);; PushBackList (Some l) (Some k)) σ =
  (PushBackList (Some m) (Some k);; PushBackList (Some l) (Some m)) σ.
Proof.
  intros Hl Hm Hk Hlm Hlk Hmk ???. destruct σ as [h ls].
  destruct (decide (xs = [])) as [->|Hxs];
    [destruct Hl as (Hl & _)
    |destruct (is_list_ends _ _ _ Hl Hxs) as (la & lb & ? & ? & Hl' & Hla & Hlb & ? & ?)];
  (destruct (decide (ms = [])) as [->|Hms];
    [destruct Hm as (Hm & _)
    |destruct (is_list_ends _ _ _ Hm Hms) as (ma & mb & ? & ? & Hm' & Hma & Hmb & ? & ?)]);
  (destruct (decide (ks = [])) as [->|Hks];
    [destruct Hk as (Hk & _)
    |destruct (is_list_ends _ _ _ Hk Hks) as (ka & kb & ? & ? & Hk' & Hka & Hkb & ? & ?)]);
  simpl in *;
  try (assert (lb ≠ ma) by (intros ->; set_solver));
  try (assert (lb ≠ ka) by (intros ->; set_solver));
  try (assert (mb ≠ ka) by (intros ->; set_solver));
  try (assert (lb ≠ mb) by (intros ->; set_solver));
  try (assert (ma ≠ ka) by (intros ->; set_solver));
  try (destruct (decide (ma = mb)) as [->|?]);
  run; state_eq.
Qed.



Lemma dseg_agree h h' p (xs : list positive) n :
  (∀ x, x ∈ xs → h' !! x = h !! x) → dseg h p xs n → dseg h' p xs n.
Proof.
  revert p. induction xs as [|x xs IH]; intros p Hagree; simpl; [done|].
  intros [Hx Hrest]. split.
  - rewrite Hagree; [done|set_solver].
  - apply IH; [|done]. intros y Hy. apply Hagree. set_solver.
Qed.

(** A list is untouched by a step that changes neither its header nor its
    members. *)
Lemma is_list_frame σ σ' (k : positive) (ks : list positive) :
  is_list σ k ks →
  lists σ' !! k = lists σ !! k →
  (∀ x, x ∈ ks → elems σ' !! x = elems σ !! x) →
  is_list σ' k ks.
Proof.
  intros (Hk & Hnd & Hseg) Hhdr Hagree. split_and!; [congruence|done|].
  by eapply dseg_agree.
Qed.

(** A successful operation on [l] keeps a list [k] that shares no element
    with the lists and elements involved. *)
Lemma other_list_kept σ (l k : positive) (xs ks : list positive) :
  is_list σ l xs → is_list σ k ks → l ≠ k → (∀ x, x ∈ xs → x ∉ ks) →
  (∀ e σ', e ∉ ks →
     PushFront (Some l) (Some e) σ = Some (tt, σ') ∨
     PushBack (Some l) (Some e) σ = Some (tt, σ') ∨
     (∃ b, b ∈ xs ∧
        (InsertAfter (Some l) (Some b) (Some e) σ = Some (tt, σ') ∨
         InsertBefore (Some l) (Some b) (Some e) σ = Some (tt, σ'))) ∨
     (e ∈ xs ∧ Remove (Some l) (Some e) σ = Some (tt, σ')) →
     is_list σ' k ks) ∧
  (∀ (m : positive) (ms : list positive) σ',
     is_list σ m ms → m ≠ k → (∀ x, x ∈ ms → x ∉ ks) →
     PushFrontList (Some l) (Some m) σ = Some (tt, σ') ∨
     PushBackList (Some l) (Some m) σ = Some (tt, σ') →
     is_list σ' k ks).
Proof.
  intros Hl Hk Hlk Hdisj. pose proof Hl as (Hhdr & _).
  assert (Hhd : ∀ x, x ∈ ks → Some x ≠ hd_error xs).
  { intros x Hx Heq. symmetry in Heq. apply head_Some_elem_of in Heq.
    by apply (Hdisj x). }
  assert (Hlast : ∀ x, x ∈ ks → Some x ≠ last xs).
  { intros x Hx Heq. symmetry in Heq. apply last_Some_elem_of in Heq.
    by apply (Hdisj x). }
  split.
  - intros e σ' He Hrun.
    destruct (insertion_frames σ l e _ σ' Hhdr)
      as (Hpf & Hpb & Hins).
    destruct Hrun as [Hrun|[Hrun|[(b & Hb & Hrun)|[Hin Hrun]]]].
    + destruct (Hpf Hrun) as [Hel Hls].
      apply (is_list_frame σ); [done|by apply Hls|].
      intros x Hx. apply Hel; [by intros ->|]. by apply Hhd.
    + destruct (Hpb Hrun) as [Hel Hls].
      apply (is_list_frame σ); [done|by apply Hls|].
      intros x Hx. apply Hel; [by intros ->|]. by apply Hlast.
    + apply list_elem_of_split in Hb as (l1 & l2 & ->).
      pose proof (is_list_lookup _ _ _ _ _ Hl) as Hlk'.
      destruct (Hins b _ Hlk') as [Hia Hib]. simpl in *.
      assert (Hnb : ∀ x, x ∈ ks → x ≠ b).
      { intros x Hx ->. apply (Hdisj b); [set_solver|done]. }
      destruct Hrun as [Hrun|Hrun].
      * destruct (Hia Hrun) as [Hel Hls].
        apply (is_list_frame σ); [done|by apply Hls|].
        intros x Hx. apply Hel; [by intros ->|by apply Hnb|].
        intros Heq. symmetry in Heq. apply head_Some_elem_of in Heq.
        apply (Hdisj x); [set_solver|done].
      * destruct (Hib Hrun) as [Hel Hls].
        apply (is_list_frame σ); [done|by apply Hls|].
        intros x Hx. apply Hel; [by intros ->|by apply Hnb|].
        intros Heq. symmetry in Heq. apply last_Some_elem_of in Heq.
        apply (Hdisj x); [set_solver|done].
    + apply list_elem_of_split in Hin as (l1 & l2 & ->).
      pose proof (is_list_lookup _ _ _ _ _ Hl) as Hlk'.
      destruct (Remove_frame _ _ _ _ _ Hlk' Hrun)
        as (Hel & Hls & _). simpl in *.
      apply (is_list_frame σ); [done|by apply Hls|].
      intros x Hx. apply Hel; [by intros ->| |].
      * intros Heq. symmetry in Heq. apply last_Some_elem_of in Heq.
        apply (Hdisj x); [set_solver|done].
      * intros Heq. symmetry in Heq. apply head_Some_elem_of in Heq.
        apply (Hdisj x); [set_solver|done].
  - intros m ms σ' Hm Hmk Hdisj' Hrun. pose proof Hm as (Hhdr' & _).
    destruct (splice_frames σ l m _ _ σ' Hhdr Hhdr')
      as [Hpf Hpb]. simpl in *.
    assert (Hhd' : ∀ x, x ∈ ks → Some x ≠ hd_error ms).
    { intros x Hx Heq. symmetry in Heq. apply head_Some_elem_of in Heq.
      by apply (Hdisj' x). }
    assert (Hlast' : ∀ x, x ∈ ks → Some x ≠ last ms).
    { intros x Hx Heq. symmetry in Heq. apply last_Some_elem_of in Heq.
      by apply (Hdisj' x). }
    destruct Hrun as [Hrun|Hrun].
    + destruct (Hpf Hrun) as (Hel & _ & Hls).
      apply (is_list_frame σ); [done|by apply Hls|].
      intros x Hx. apply Hel; [by apply Hhd|by apply Hlast'].
    + destruct (Hpb Hrun) as (Hel & _ & Hls).
      apply (is_list_frame σ); [done|by apply Hls|].
      intros x Hx. apply Hel; [by apply Hlast|by apply Hhd'].
Qed.



Lemma filter_ne_nil_of_singleton_members (y : positive) (xs ys : list positive) :
  NoDup (y :: ys) → (∀ x, x ∈ y :: ys ↔ x ∈ xs) →
  ∀ x, x ∈ ys ↔ x ∈ filter (λ x, x ≠ y) xs.
Proof.
  intros [Hy _]%NoDup_cons Hiff x. rewrite list_elem_of_filter, <-Hiff.
  split; [|set_solver]. intros Hx. split; [by intros ->|set_solver].
Qed.

Lemma drain_aux (l : positive) (ys : list positive) :
  ∀ σ (xs : list positive),
    is_list σ l xs → NoDup ys → (∀ x, x ∈ ys ↔ x ∈ xs) →
    ∃ σ', replay (Some l) (OpRemove <$> ys) σ = Some (tt, σ') ∧
      is_list σ' l [] ∧
      (∀ x, x ∈ xs → elems σ' !! x = Some (Entry None None)) ∧
      (∀ x, x ∉ xs → elems σ' !! x = elems σ !! x) ∧
      (∀ k, k ≠ l → lists σ' !! k = lists σ !! k).
Proof.
  induction ys as [|y ys IH]; intros σ xs Hl Hnd Hiff.
  - assert (xs = []) as ->.
    { destruct xs as [|x xs]; [done|]. exfalso.
      apply (elem_of_nil x), Hiff. set_solver. }
    exists σ. split_and!; try done. intros x Hx. by apply elem_of_nil in Hx.
  - assert (Hy : y ∈ xs) by (apply Hiff; set_solver).
    destruct (Remove_filter_spec _ _ _ _ Hl Hy) as (σ1 & Hrun & Hl1 & Hnil & _).
    pose proof (filter_ne_nil_of_singleton_members _ _ _ Hnd Hiff) as Hiff1.
    apply NoDup_cons in Hnd as [Hyys Hnd].
    destruct (IH σ1 _ Hl1 Hnd Hiff1) as (σ' & Hrest & Hl' & Hall & Hframe & Hhdrs).
    assert (Hstep : (∀ x, x ∉ xs → elems σ1 !! x = elems σ !! x) ∧
                    (∀ k, k ≠ l → lists σ1 !! k = lists σ !! k)).
    { apply list_elem_of_split in Hy as (l1 & l2 & ->).
      pose proof (is_list_lookup _ _ _ _ _ Hl) as Hlk.
      destruct (Remove_frame _ _ _ _ _ Hlk Hrun)
        as (Hel & Hls & _). simpl in *. split; [|done].
      intros x Hx. apply Hel.
      - intros ->. set_solver.
      - intros Heq. symmetry in Heq. apply last_Some_elem_of in Heq. set_solver.
      - intros Heq. symmetry in Heq. apply head_Some_elem_of in Heq. set_solver. }
    destruct Hstep as [Hstep1 Hstep2].
    exists σ'. split_and!.
    + simpl. unfold mbind, M_bind. by rewrite Hrun.
    + done.
    + intros x Hx. destruct (decide (x = y)) as [->|Hne].
      * rewrite Hframe; [done|]. rewrite list_elem_of_filter. naive_solver.
      * apply Hall. rewrite list_elem_of_filter. naive_solver.
    + intros x Hx. rewrite Hframe, Hstep1; [done..|].
      rewrite list_elem_of_filter. naive_solver.
    + intros k Hk. by rewrite Hhdrs, Hstep2.
Qed.

(** X18. Removing all members of a list one by one, in any order, returns and
    leaves the list empty, every former member with [nil] links, and all
    other elements and all other headers as they were. *)
Theorem removing_all_members_empties σ (l : positive) (xs ys : list positive) :
  is_list σ l xs → ys ≡ₚ xs →
  ∃ σ', replay (Some l) (OpRemove <$> ys) σ = Some (tt, σ') ∧
    Empty (Some l) σ' = Some (true, σ') ∧
    is_list σ' l [] ∧
    (∀ x, x ∈ xs → elems σ' !! x = Some (Entry None None)) ∧
    (∀ x, x ∉ xs → elems σ' !! x = elems σ !! x) ∧
    (∀ k, k ≠ l → lists σ' !! k = lists σ !! k).
Proof.
  intros Hl Hperm. pose proof Hl as (_ & Hnd & _).
  destruct (drain_aux l ys σ xs Hl) as (σ' & Hrun & Hl' & Hrest).
  - by rewrite Hperm.
  - intros x. by rewrite Hperm.
  - exists σ'. rewrite (is_list_Empty _ _ _ Hl'). destruct Hrest as (? & ? & ?).
    by split_and!.
Qed.

Lemma removing_all_members_empties_witness :
  ∃ σ', replay (Some 10%positive) (OpRemove <$> [2; 3; 1]%positive) demo_lists
          = Some (tt, σ') ∧
    Empty (Some 10%positive) σ' = Some (true, σ').
Proof.
  destruct (removing_all_members_empties demo_lists 10%positive
              [1; 2; 3]%positive [2; 3; 1]%positive)
    as (σ' & Hrun & Hempty & _).
  - by_compute.
  - by apply (bool_decide_unpack _).
  - by exists σ'.
Defined.

Lemma foldl_push_back (xs ys : list positive) :
  foldl apply_op xs (OpPushBack <$> ys) = xs ++ ys.
Proof.
  revert xs. induction ys as [|y ys IH]; intros xs; simpl.
  - by rewrite app_nil_r.
  - by rewrite IH, <-app_assoc.
Qed.

Lemma foldl_push_front (xs ys : list positive) :
  foldl apply_op xs (OpPushFront <$> ys) = reverse ys ++ xs.
Proof.
  revert xs. induction ys as [|y ys IH]; intros xs; simpl; [done|].
  by rewrite IH, reverse_cons, <-app_assoc.
Qed.

Lemma admissible_push_back (xs ys : list positive) :
  NoDup (xs ++ ys) → admissible xs (OpPushBack <$> ys).
Proof.
  revert xs. induction ys as [|y ys IH]; intros xs Hnd; simpl; [done|].
  split; [split_NoDup; set_solver|]. apply IH. by rewrite <-app_assoc.
Qed.

Lemma admissible_push_front (xs ys : list positive) :
  NoDup (xs ++ ys) → admissible xs (OpPushFront <$> ys).
Proof.
  revert xs. induction ys as [|y ys IH]; intros xs Hnd; simpl; [done|].
  split; [split_NoDup; set_solver|]. apply IH.
  simpl. by rewrite (Permutation_middle xs ys y).
Qed.

(** X19. From any header and whatever links the elements carry, [Reset] followed
    by [PushBack] of distinct live elements builds the list of these elements
    in the order pushed, and followed by [PushFront] the list in the reverse
    order. *)
Theorem Reset_then_pushes_build_a_list σ (l : positive) L (ys : list positive) :
  lists σ !! l = Some L → NoDup ys → (∀ y, y ∈ ys → allocated σ y) →
  (∃ σ', (Reset (Some l);; replay (Some l) (OpPushBack <$> ys)) σ = Some (tt, σ') ∧
     is_list σ' l ys) ∧
  (∃ σ', (Reset (Some l);; replay (Some l) (OpPushFront <$> ys)) σ = Some (tt, σ') ∧
     is_list σ' l (reverse ys)).
Proof.
  intros Hl Hnd Halloc.
  assert (Hbind : ∀ k : M unit,
    (Reset (Some l);; k) σ =
    k (State (elems σ) (<[l:=ListHdr None None]> (lists σ)))).
  { intros k. unfold mbind, M_bind at 1. by rewrite (Reset_spec _ _ _ Hl). }
  rewrite !Hbind.
  set (σ0 := State (elems σ) (<[l:=ListHdr None None]> (lists σ))).
  assert (Hl0 : is_list σ0 l []).
  { split_and!; [by apply lookup_insert_eq|constructor|done]. }
  split.
  - destruct (replay_spec σ0 l [] (OpPushBack <$> ys) Hl0) as (σ' & Hrun & Hl' & _).
    + intros o (y & -> & Hy)%list_elem_of_fmap. by apply Halloc.
    + by apply admissible_push_back.
    + exists σ'. by rewrite foldl_push_back in Hl'.
  - destruct (replay_spec σ0 l [] (OpPushFront <$> ys) Hl0) as (σ' & Hrun & Hl' & _).
    + intros o (y & -> & Hy)%list_elem_of_fmap. by apply Halloc.
    + by apply admissible_push_front.
    + exists σ'. by rewrite foldl_push_front, app_nil_r in Hl'.
Qed.

Lemma Reset_then_pushes_build_a_list_witness :
  (∃ σ', (Reset (Some 10%positive);;
          replay (Some 10%positive) (OpPushBack <$> [3; 8; 1]%positive))
           demo_lists = Some (tt, σ') ∧
     is_list σ' 10 [3; 8; 1]%positive) ∧
  (∃ σ', (Reset (Some 10%positive);;
          replay (Some 10%positive) (OpPushFront <$> [3; 8; 1]%positive))
           demo_lists = Some (tt, σ') ∧
     is_list σ' 10 [1; 8; 3]%positive).
Proof.
  apply (Reset_then_pushes_build_a_list demo_lists 10%positive
           (ListHdr (Some 1%positive) (Some 3%positive)) [3; 8; 1]%positive).
  - reflexivity.
  - by_compute.
  - apply Forall_forall. by_compute.
Defined.

(** X20. Whatever the state, a [Remove] that returns has written no element but
    [e] and the two elements its links named, and no header but [l]'s; it
    has written no header at all if both links were set. *)
Theorem Remove_writes_neighbours_only σ (l e : positive) en σ' :
  elems σ !! e = Some en →
  Remove (Some l) (Some e) σ = Some (tt, σ') →
  (∀ x, x ≠ e → Some x ≠ prev en → Some x ≠ next en →
     elems σ' !! x = elems σ !! x) ∧
  (∀ k, k ≠ l → lists σ' !! k = lists σ !! k) ∧
  (prev en ≠ None → next en ≠ None → lists σ' = lists σ).
Proof.
  destruct σ as [h ls], en as [n p]. simpl. intros He.
  unfold_ops. simpl. rewrite He. simpl.
  destruct p as [p|], n as [n|]; simpl; intros Hrun;
    repeat (first [ progress simplify_eq/= | case_match ]); try done;
    (split_and!; [intros x ???; untouched|intros k ?; untouched|
                  intros ??; untouched]).
Qed.

Lemma Remove_writes_neighbours_only_witness :
  ∃ σ', Remove (Some 10%positive) (Some 1%positive) demo_lists = Some (tt, σ') ∧
    elems σ' !! 3%positive = elems demo_lists !! 3%positive ∧
    lists σ' !! 11%positive = lists demo_lists !! 11%positive.
Proof.
  destruct (Remove_filter_spec demo_lists 10%positive [1; 2; 3]%positive
              1%positive) as (σ' & Hrun & _); [by_compute..|].
  exists σ'. split; [done|].
  destruct (Remove_writes_neighbours_only demo_lists 10%positive 1%positive
              (Entry (Some 2%positive) None) σ' eq_refl Hrun)
    as (Hel & Hls & _).
  split; [by apply Hel|by apply Hls].
Defined.

(** X21. Whatever the state, an insertion that returns has written no element
    but [e] and its new neighbours (the former head for [PushFront], the
    former tail for [PushBack], [b] and its former successor or predecessor
    for [InsertAfter] and [InsertBefore]), and no header but [l]'s. *)
Theorem insertions_write_neighbours_only σ (l e : positive) L σ' :
  lists σ !! l = Some L →
  (PushFront (Some l) (Some e) σ = Some (tt, σ') →
     (∀ x, x ≠ e → Some x ≠ head L → elems σ' !! x = elems σ !! x) ∧
     (∀ k, k ≠ l → lists σ' !! k = lists σ !! k)) ∧
  (PushBack (Some l) (Some e) σ = Some (tt, σ') →
     (∀ x, x ≠ e → Some x ≠ tail L → elems σ' !! x = elems σ !! x) ∧
     (∀ k, k ≠ l → lists σ' !! k = lists σ !! k)) ∧
  (∀ b enb, elems σ !! b = Some enb →
     (InsertAfter (Some l) (Some b) (Some e) σ = Some (tt, σ') →
        (∀ x, x ≠ e → x ≠ b → Some x ≠ next enb →
           elems σ' !! x = elems σ !! x) ∧
        (∀ k, k ≠ l → lists σ' !! k = lists σ !! k)) ∧
     (InsertBefore (Some l) (Some b) (Some e) σ = Some (tt, σ') →
        (∀ x, x ≠ e → x ≠ b → Some x ≠ prev enb →
           elems σ' !! x = elems σ !! x) ∧
        (∀ k, k ≠ l → lists σ' !! k = lists σ !! k))).
Proof.
  destruct σ as [h ls], L as [hd tl]. simpl. intros Hl. split_and!.
  - intros Hrun. crack_run Hrun; (split; [intros x ??|intros k ?]); untouched.
  - intros Hrun. crack_run Hrun; (split; [intros x ??|intros k ?]); untouched.
  - intros b [n p] Hb. split; intros Hrun; crack_run Hrun;
      (split; [intros x ???|intros k ?]); untouched.
Qed.

Lemma insertions_write_neighbours_only_witness :
  ∃ σ', InsertAfter (Some 10%positive) (Some 1%positive) (Some 4%positive)
          demo_lists = Some (tt, σ') ∧
    elems σ' !! 3%positive = elems demo_lists !! 3%positive ∧
    lists σ' !! 11%positive = lists demo_lists !! 11%positive.
Proof.
  destruct (InsertAfter_spec demo_lists 10%positive [] 1%positive
              [2; 3]%positive 4%positive) as (σ' & Hrun & _); [by_compute..|].
  exists σ'. split; [done|].
  destruct (insertions_write_neighbours_only demo_lists 10%positive 4%positive
              (ListHdr (Some 1%positive) (Some 3%positive)) σ' eq_refl)
    as (_ & _ & Hins).
  destruct (Hins 1%positive (Entry (Some 2%positive) None) eq_refl) as [Hia _].
  destruct (Hia Hrun) as [Hel Hls].
  split; [by apply Hel|by apply Hls].
Defined.

(** X22. Whatever the state, a splice that returns has written at most the two
    elements at the seam ([l]'s head and [m]'s tail for [PushFrontList],
    [l]'s tail and [m]'s head for [PushBackList]), none at all if either
    list was empty, and no header but [l]'s and [m]'s. *)
Theorem splices_write_the_seam_only σ (l m : positive) L M σ' :
  lists σ !! l = Some L → lists σ !! m = Some M →
  (PushFrontList (Some l) (Some m) σ = Some (tt, σ') →
     (∀ x, Some x ≠ head L → Some x ≠ tail M → elems σ' !! x = elems σ !! x) ∧
     (head L = None ∨ head M = None → elems σ' = elems σ) ∧
     (∀ k, k ≠ l → k ≠ m → lists σ' !! k = lists σ !! k)) ∧
  (PushBackList (Some l) (Some m) σ = Some (tt, σ') →
     (∀ x, Some x ≠ tail L → Some x ≠ head M → elems σ' !! x = elems σ !! x) ∧
     (head L = None ∨ head M = None → elems σ' = elems σ) ∧
     (∀ k, k ≠ l → k ≠ m → lists σ' !! k = lists σ !! k)).
Proof.
  destruct σ as [h ls], L as [lh lt], M as [mh mt]. simpl. intros Hl Hm.
  split; intros Hrun; crack_run Hrun;
    (split_and!; [intros x ??|intros [?|?]|intros k ??]); untouched.
Qed.

Lemma splices_write_the_seam_only_witness :
  ∃ σ', PushBackList (Some 10%positive) (Some 11%positive) demo_lists
          = Some (tt, σ') ∧
    elems σ' !! 1%positive = elems demo_lists !! 1%positive ∧
    elems σ' !! 6%positive = elems demo_lists !! 6%positive ∧
    lists σ' !! 12%positive = lists demo_lists !! 12%positive.
Proof.
  destruct (PushBackList_spec demo_lists 10%positive 11%positive
              [1; 2; 3]%positive [5; 6]%positive) as (σ' & Hrun & _);
    [by_compute..|apply Forall_forall; by_compute|].
  exists σ'. split; [done|].
  destruct (splices_write_the_seam_only demo_lists 10%positive 11%positive
              (ListHdr (Some 1%positive) (Some 3%positive))
              (ListHdr (Some 5%positive) (Some 6%positive)) σ' eq_refl eq_refl)
    as [_ Hpb].
  destruct (Hpb Hrun) as (Hel & _ & Hls).
  split_and!; [by apply Hel..|by apply Hls].
Defined.

(** X23. An operation on [l] under its precondition keeps every list [k] that
    shares no element with the lists and the element involved: afterwards
    [k] still spans [ks]. *)
Theorem other_lists_are_undisturbed σ (l k : positive) (xs ks : list positive) :
  is_list σ l xs → is_list σ k ks → l ≠ k → (∀ x, x ∈ xs → x ∉ ks) →
  (∀ e, allocated σ e → e ∉ xs → e ∉ ks →
     (∃ σ', PushFront (Some l) (Some e) σ = Some (tt, σ') ∧
        is_list σ' l (e :: xs) ∧ is_list σ' k ks) ∧
     (∃ σ', PushBack (Some l) (Some e) σ = Some (tt, σ') ∧
        is_list σ' l (xs ++ [e]) ∧ is_list σ' k ks) ∧
     (∀ (l1 : list positive) b l2, xs = l1 ++ b :: l2 →
        (∃ σ', InsertAfter (Some l) (Some b) (Some e) σ = Some (tt, σ') ∧
           is_list σ' l (l1 ++ b :: e :: l2) ∧ is_list σ' k ks) ∧
        (∃ σ', InsertBefore (Some l) (Some b) (Some e) σ = Some (tt, σ') ∧
           is_list σ' l (l1 ++ e :: b :: l2) ∧ is_list σ' k ks))) ∧
  (∀ e, e ∈ xs →
     ∃ σ', Remove (Some l) (Some e) σ = Some (tt, σ') ∧
       is_list σ' l (filter (λ x, x ≠ e) xs) ∧ is_list σ' k ks) ∧
  (∀ (m : positive) (ms : list positive),
     is_list σ m ms → m ≠ k → (∀ x, x ∈ xs → x ∉ ms) → (∀ x, x ∈ ms → x ∉ ks) →
     (∃ σ', PushFrontList (Some l) (Some m) σ = Some (tt, σ') ∧
        is_list σ' l (ms ++ xs) ∧ is_list σ' m [] ∧ is_list σ' k ks) ∧
     (∃ σ', PushBackList (Some l) (Some m) σ = Some (tt, σ') ∧
        is_list σ' l (xs ++ ms) ∧ is_list σ' m [] ∧ is_list σ' k ks)).
Proof.
  intros Hl Hk Hlk Hdisj.
  destruct (other_list_kept _ _ _ _ _ Hl Hk Hlk Hdisj) as [Hkept Hkept'].
  split_and!.
  - intros e Ha Hfresh Hek. split_and!.
    + destruct (PushFront_spec _ _ _ _ Hl Ha Hfresh) as (σ' & Hrun & Hl').
      exists σ'. split_and!; [done..|]. apply (Hkept e); [done|]. by left.
    + destruct (PushBack_spec _ _ _ _ Hl Ha Hfresh) as (σ' & Hrun & Hl').
      exists σ'. split_and!; [done..|]. apply (Hkept e); [done|].
      right. by left.
    + intros l1 b l2 ->. split.
      * destruct (InsertAfter_spec _ _ _ _ _ _ Hl Ha Hfresh) as (σ' & Hrun & Hl').
        exists σ'. split_and!; [done..|]. apply (Hkept e); [done|].
        right. right. left. exists b. split; [set_solver|]. by left.
      * destruct (InsertBefore_spec _ _ _ _ _ _ Hl Ha Hfresh) as (σ' & Hrun & Hl').
        exists σ'. split_and!; [done..|]. apply (Hkept e); [done|].
        right. right. left. exists b. split; [set_solver|]. by right.
  - intros e He.
    destruct (Remove_filter_spec _ _ _ _ Hl He) as (σ' & Hrun & Hl' & _).
    exists σ'. split_and!; [done..|]. apply (Hkept e); [by apply Hdisj|].
    right. right. by right.
  - intros m ms Hm Hmk Hdisj1 Hdisj2. split.
    + destruct (PushFrontList_spec _ _ _ _ _ Hl Hm Hdisj1) as (σ' & Hrun & Hl' & Hm').
      exists σ'. split_and!; [done..|]. apply (Hkept' m ms); [done..|]. by left.
    + destruct (PushBackList_spec _ _ _ _ _ Hl Hm Hdisj1) as (σ' & Hrun & Hl' & Hm').
      exists σ'. split_and!; [done..|]. apply (Hkept' m ms); [done..|]. by right.
Qed.

Lemma other_lists_are_undisturbed_witness :
  (∃ σ', Remove (Some 10%positive) (Some 2%positive) demo_lists = Some (tt, σ') ∧
     is_list σ' 10 [1; 3]%positive ∧ is_list σ' 11 [5; 6]%positive) ∧
  (∃ σ', PushBackList (Some 10%positive) (Some 11%positive) demo_three
           = Some (tt, σ') ∧
     is_list σ' 10 [1; 2; 3]%positive ∧ is_list σ' 12 [4; 5]%positive).
Proof.
  split.
  - destruct (other_lists_are_undisturbed demo_lists 10%positive 11%positive
                [1; 2; 3]%positive [5; 6]%positive) as (_ & Hrem & _);
      [by_compute..|apply Forall_forall; by_compute|].
    destruct (Hrem 2%positive) as (σ' & ? & ? & ?); [by_compute|].
    by exists σ'.
  - destruct (other_lists_are_undisturbed demo_three 10%positive 12%positive
                [1; 2]%positive [4; 5]%positive) as (_ & _ & Hsplice);
      [by_compute..|apply Forall_forall; by_compute|].
    destruct (Hsplice 11%positive [3]%positive) as [_ (σ' & ? & ? & _ & ?)];
      [by_compute|done|apply Forall_forall; by_compute
      |apply Forall_forall; by_compute|].
    by exists σ'.
Defined.

(** X24. Splicing [m] and then [k] onto the back of [l] ends in the same state
    as splicing [k] onto [m] first and the result onto [l]: [l] spans the
    three sequences in order and [m] and [k] are empty. *)
Theorem PushBackList_is_associative σ (l m k : positive)
    (xs ms ks : list positive) :
  is_list σ l xs → is_list σ m ms → is_list σ k ks →
  (∀ x, x ∈ xs → x ∉ ms) → (∀ x, x ∈ xs → x ∉ ks) → (∀ x, x ∈ ms → x ∉ ks) →
  l ≠ m → l ≠ k → m ≠ k →
  ∃ σ',
    (PushBackList (Some l) (Some m);; PushBackList (Some l) (Some k)) σ
      = Some (tt, σ') ∧
    (PushBackList (Some m) (Some k);; PushBackList (Some l) (Some m)) σ
      = Some (tt, σ') ∧
    is_list σ' l (xs ++ ms ++ ks) ∧ is_list σ' m [] ∧ is_list σ' k [].
Proof.
  intros Hl Hm Hk Hlm Hlk Hmk Hne1 Hne2 Hne3.
  rewrite <-(PushBackList_assoc_eq σ l m k xs ms ks) by done.
  destruct (PushBackList_spec _ _ _ _ _ Hl Hm Hlm) as (σ1 & Hrun1 & Hl1 & Hm1).
  destruct (other_list_kept _ _ _ _ _ Hl Hk Hne2 Hlk) as [_ Hkept].
  assert (Hk1 : is_list σ1 k ks).
  { apply (Hkept m ms); [done..|]. by right. }
  destruct (PushBackList_spec _ _ _ _ _ Hl1 Hk1) as (σ' & Hrun2 & Hl' & Hk').
  { intros x [Hx|Hx]%elem_of_app; [by apply Hlk|by apply Hmk]. }
  assert (Hdisj0 : ∀ x, x ∈ xs ++ ms → x ∉ @nil positive).
  { intros x _. apply not_elem_of_nil. }
  destruct (other_list_kept _ _ _ _ _ Hl1 Hm1 Hne1 Hdisj0) as [_ Hkept1].
  exists σ'. split_and!.
  - unfold mbind, M_bind. by rewrite Hrun1.
  - unfold mbind, M_bind. by rewrite Hrun1.
  - by rewrite app_assoc.
  - apply (Hkept1 k ks); [done|done| |by right].
    intros x _. apply not_elem_of_nil.
  - done.
Qed.

Lemma PushBackList_is_associative_witness :
  ∃ σ',
    (PushBackList (Some 10%positive) (Some 11%positive);;
     PushBackList (Some 10%positive) (Some 12%positive)) demo_three
      = Some (tt, σ') ∧
    (PushBackList (Some 11%positive) (Some 12%positive);;
     PushBackList (Some 10%positive) (Some 11%positive)) demo_three
      = Some (tt, σ') ∧
    is_list σ' 10 [1; 2; 3; 4; 5]%positive.
Proof.
  destruct (PushBackList_is_associative demo_three 10%positive 11%positive
              12%positive [1; 2]%positive [3]%positive [4; 5]%positive)
    as (σ' & ? & ? & ? & _);
    [by_compute|by_compute|by_compute
    |apply Forall_forall; by_compute|apply Forall_forall; by_compute
    |apply Forall_forall; by_compute|done|done|done|].
  by exists σ'.
Defined.
